(** * KeyValues: the hierarchical key/value document of libmisc

    A shallow embedding of [class KeyValues] (code/KeyValues.hpp, kept in
    this tree inside CairoText.hpp): the typed accessors with their cache,
    the single-pass scanner [ParseString], the serializer
    [DumpToStreamInternal], and the properties the design document states
    about them.

    Conventions of the embedding
    - a [char *] that is known to point to a C string is the list of the
      characters before its terminator ([cstring]); a pointer that may be
      null is an [option cstring];
    - [int] is 32 bits and [long] is 64 bits (LP64); values are in [Z] and
      every narrowing is written out;
    - [errno] is threaded explicitly through the functions that read it;
    - an access outside a fixed-size array has no defined behaviour in C;
      the scanner's outcome type has a constructor for it. *)

From Stdlib Require Import String Ascii List ZArith Bool Lia Arith.
From Stdlib Require Import Floats.SpecFloat.
Import ListNotations.

(** ** Characters and C strings *)

Definition cstring := list ascii.

Definition NUL : ascii := "000"%char.
Definition TAB : ascii := "009"%char.
Definition LF : ascii := "010"%char.
Definition VT : ascii := "011"%char.
Definition FF : ascii := "012"%char.
Definition CR : ascii := "013"%char.
Definition SPACE : ascii := " "%char.
Definition DQUOTE : ascii := "034"%char.
Definition SLASH : ascii := "/"%char.
Definition LBRACE : ascii := "{"%char.
Definition RBRACE : ascii := "}"%char.

(** Literals in examples. *)
Definition str (s : string) : cstring := list_ascii_of_string s.

(** [strlen]: the characters before the first NUL. *)
Fixpoint c_str (l : list ascii) : cstring :=
  match l with
  | [] => []
  | c :: l' => if Ascii.eqb c NUL then [] else c :: c_str l'
  end.

(** [kvstrdup(buf)] copies [strlen(buf) + 1] bytes. *)
Definition kvstrdup (buf : list ascii) : cstring := c_str buf.

(** [strcmp(a, b) == 0]. *)
Fixpoint strcmp0 (a b : cstring) : bool :=
  match a, b with
  | [], [] => true
  | x :: a', y :: b' => Ascii.eqb x y && strcmp0 a' b'
  | _, _ => false
  end.

Definition tolower (c : ascii) : ascii :=
  let n := nat_of_ascii c in
  if (65 <=? n) && (n <=? 90) then ascii_of_nat (n + 32) else c.

(** [strcasecmp(a, b) == 0] in the C locale. *)
Fixpoint strcasecmp0 (a b : cstring) : bool :=
  match a, b with
  | [], [] => true
  | x :: a', y :: b' => Ascii.eqb (tolower x) (tolower y) && strcasecmp0 a' b'
  | _, _ => false
  end.

(** [KeyValues::_internal_isspace]. *)
Definition _internal_isspace (c : ascii) : bool :=
  Ascii.eqb c SPACE || Ascii.eqb c TAB || Ascii.eqb c LF || Ascii.eqb c CR.

(** ** Integers *)

Definition INT_MIN : Z := - 2 ^ 31.
Definition INT_MAX : Z := 2 ^ 31 - 1.
Definition LONG_MIN : Z := - 2 ^ 63.
Definition LONG_MAX : Z := 2 ^ 63 - 1.

(** The conversion [(int)v] of a [long]: reduction modulo 2^32 into the
    signed range. *)
Definition to_int (v : Z) : Z := (v + 2 ^ 31) mod 2 ^ 32 - 2 ^ 31.

Definition ERANGE : Z := 34.

(** ** [strtol(s, nullptr, 10)] of the C library

    Leading white space ([isspace] of the C locale), an optional sign, then
    the longest run of decimal digits.  With no digit the result is 0 and
    [errno] is left alone (ISO C; glibc); out of range the result is
    clamped and [errno] becomes [ERANGE].  [errno] is never reset to 0. *)

Definition isspace (c : ascii) : bool :=
  Ascii.eqb c SPACE || Ascii.eqb c TAB || Ascii.eqb c LF
  || Ascii.eqb c VT || Ascii.eqb c FF || Ascii.eqb c CR.

Definition isdigit (c : ascii) : bool :=
  let n := nat_of_ascii c in (48 <=? n) && (n <=? 57).

Fixpoint skip_space (s : cstring) : cstring :=
  match s with
  | c :: s' => if isspace c then skip_space s' else s
  | [] => []
  end.

(** The digits at the head of [s], accumulated onto [acc]; [None] when
    there is none. *)
Fixpoint digits (acc : option Z) (s : cstring) : option Z :=
  match s with
  | c :: s' =>
      if isdigit c
      then digits (Some (10 * match acc with Some a => a | None => 0 end
                         + (Z.of_nat (nat_of_ascii c) - 48))%Z) s'
      else acc
  | [] => acc
  end.

Definition strtol (errno : Z) (s : cstring) : Z * Z :=
  let s1 := skip_space s in
  let '(neg, s2) :=
    match s1 with
    | c :: r => if Ascii.eqb c "-" then (true, r)
                else if Ascii.eqb c "+" then (false, r) else (false, s1)
    | [] => (false, s1)
    end in
  match digits None s2 with
  | None => (0%Z, errno)
  | Some n =>
      let v := if neg then (- n)%Z else n in
      if (v <? LONG_MIN)%Z then (LONG_MIN, ERANGE)
      else if (LONG_MAX <? v)%Z then (LONG_MAX, ERANGE)
      else (v, errno)
  end.

(** ** The document tree *)

(** [Key::ELastCached] together with the union [cachedv]: the member that
    is read is always the one the tag names. *)
Inductive ELastCached : Type :=
| NONE
| INT (ival : Z)
| FLOAT (fval : spec_float)
| BOOL (bval : bool).

Record Key : Type := mkKey {
  key : option cstring;
  value : option cstring;
  cached : ELastCached;
  quoted : bool
}.

(** [class KeyValues]: one section.  The allocator pair and the callback
    slot are left out; [ReportError]'s calls of the callback are the
    reports the scanner's state collects. *)
Unset Elimination Schemes.
Inductive KeyValues : Type := mkKeyValues {
  name : option cstring;
  good : bool;
  kv_quoted : bool;
  keys : list Key;
  child_sections : list KeyValues
}.
Set Elimination Schemes.

(** Induction on a tree, with the hypothesis for every child. *)
Fixpoint KeyValues_tree_ind (P : KeyValues -> Prop)
    (H : forall nm gd q ks cs, Forall P cs -> P (mkKeyValues nm gd q ks cs))
    (kv : KeyValues) {struct kv} : P kv :=
  match kv with
  | mkKeyValues nm gd q ks cs =>
      H nm gd q ks cs
        ((fix all (l : list KeyValues) : Forall P l :=
            match l with
            | [] => Forall_nil P
            | c :: l' => Forall_cons c (KeyValues_tree_ind P H c) (all l')
            end) cs)
  end.

(** [KeyValues::KeyValues()] and [KeyValues::KeyValues(const char *name)]. *)
Definition KeyValues_new : KeyValues :=
  mkKeyValues None true false [] [].

Definition KeyValues_named (nm : cstring) : KeyValues :=
  mkKeyValues (Some (kvstrdup nm)) true false [] [].

Definition set_keys (ks : list Key) (kv : KeyValues) : KeyValues :=
  mkKeyValues (name kv) (good kv) (kv_quoted kv) ks (child_sections kv).

Definition set_good (g : bool) (kv : KeyValues) : KeyValues :=
  mkKeyValues (name kv) g (kv_quoted kv) (keys kv) (child_sections kv).

Definition set_cached (c : ELastCached) (k : Key) : Key :=
  mkKey (key k) (value k) c (quoted k).

Definition set_value (v : option cstring) (k : Key) : Key :=
  mkKey (key k) v (cached k) (quoted k).

(** The loop test [_key.key && strcmp(_key.key, key) == 0]. *)
Definition key_is (k : cstring) (e : Key) : bool :=
  match key e with
  | Some s => strcmp0 s k
  | None => false
  end.

(** ** Typed reads of one entry

    Each returns the entry as the call leaves it, the value returned and
    the flag [ok]. *)

Definition ReadBool (this : Key) : Key * bool * bool :=
  match cached this with
  | BOOL b => (this, b, true)
  | _ =>
      match value this with
      | None => (this, false, false)
      | Some v =>
          if strcasecmp0 v (str "true") || strcmp0 v (str "1")
          then (set_cached (BOOL true) this, true, true)
          else if strcasecmp0 v (str "false") || strcmp0 v (str "0")
          then (set_cached (BOOL false) this, false, true)
          else (this, false, false)
      end
  end.

(** [ReadInt] tests [errno == 0] after [strtol]; nothing clears [errno]
    before the call, so its value on entry is part of the input. *)
Definition ReadInt (errno : Z) (this : Key) : Key * Z * bool * Z :=
  match cached this with
  | INT i => (this, i, true, errno)
  | _ =>
      match value this with
      | None => (this, 0%Z, false, errno)
      | Some s =>
          let '(v, errno') := strtol errno s in
          if (errno' =? 0)%Z
          then (set_cached (INT v) this, v, true, errno')
          else (this, 0%Z, false, errno')
      end
  end.

Section Floating.

(** [strtod(s, nullptr)]: the value and [errno] after the call, given
    [errno] before it; and the conversion [(float)d]. *)
Variable strtod : Z -> cstring -> spec_float * Z.
Variable to_float : spec_float -> spec_float.

Definition ReadFloat (errno : Z) (this : Key) : Key * spec_float * bool * Z :=
  match cached this with
  | FLOAT f => (this, f, true, errno)
  | _ =>
      match value this with
      | None => (this, S754_zero false, false, errno)
      | Some s =>
          let '(f, errno') := strtod errno s in
          if (errno' =? 0)%Z
          then (set_cached (FLOAT f) this, f, true, errno')
          else (this, S754_zero false, false, errno')
      end
  end.

(** [GetFloat] and [GetDouble]; as in [GetInt] below the loop variable is
    a copy of the entry. *)
Definition GetFloat (errno : Z) (this : KeyValues) (k : cstring)
    (_default : spec_float) : spec_float * Z :=
  match find (key_is k) (keys this) with
  | Some _key =>
      let '(_, f, ok, errno') := ReadFloat errno _key in
      (if ok then to_float f else _default, errno')
  | None => (_default, errno)
  end.

Definition GetDouble (errno : Z) (this : KeyValues) (k : cstring)
    (_default : spec_float) : spec_float * Z :=
  match find (key_is k) (keys this) with
  | Some _key =>
      let '(_, f, ok, errno') := ReadFloat errno _key in
      (if ok then f else _default, errno')
  | None => (_default, errno)
  end.

End Floating.

(** ** Getters

    Every getter walks [keys] with [for (auto _key : this->keys)]: the
    loop variable is a copy of the entry, so what [ReadBool]/[ReadInt]
    store in its cache is dropped when the getter returns and the section
    is left as it was.  The getters return the section all the same, so
    that sequences of calls read uniformly. *)

Definition GetBool (this : KeyValues) (k : cstring) (_default : bool)
    : KeyValues * bool :=
  match find (key_is k) (keys this) with
  | Some _key =>
      let '(_, b, ok) := ReadBool _key in
      (this, if ok then b else _default)
  | None => (this, _default)
  end.

Definition GetInt (errno : Z) (this : KeyValues) (k : cstring) (_default : Z)
    : KeyValues * Z * Z :=
  match find (key_is k) (keys this) with
  | Some _key =>
      let '(_, i, ok, errno') := ReadInt errno _key in
      (this, if ok then to_int i else _default, errno')
  | None => (this, _default, errno)
  end.

Definition GetString (this : KeyValues) (k : cstring)
    (_default : option cstring) : option cstring :=
  match find (key_is k) (keys this) with
  | Some _key => value _key
  | None => _default
  end.

Definition HasKey (this : KeyValues) (k : cstring) : bool :=
  match find (key_is k) (keys this) with
  | Some _ => true
  | None => false
  end.

Definition GetChild (this : KeyValues) (nm : cstring) : option KeyValues :=
  find (fun c => match name c with Some s => strcmp0 nm s | None => false end)
       (child_sections this).

(** ** Setters

    These walk [keys] by reference ([auto &_key]) and change the first
    match in place. *)

Fixpoint update_first (p : Key -> bool) (f : Key -> Key) (ks : list Key)
    : list Key :=
  match ks with
  | [] => []
  | e :: ks' => if p e then f e :: ks' else e :: update_first p f ks'
  end.

Definition SetBool (this : KeyValues) (k : cstring) (v : bool) : KeyValues :=
  set_keys (update_first (key_is k) (set_cached (BOOL v)) (keys this)) this.

Definition SetInt (this : KeyValues) (k : cstring) (v : Z) : KeyValues :=
  set_keys (update_first (key_is k) (set_cached (INT v)) (keys this)) this.

Definition SetFloat (this : KeyValues) (k : cstring) (v : spec_float)
    : KeyValues :=
  set_keys (update_first (key_is k) (set_cached (FLOAT v)) (keys this)) this.

Definition SetString (this : KeyValues) (k : cstring) (v : cstring)
    : KeyValues :=
  set_keys (update_first (key_is k)
              (fun e => set_value (Some (kvstrdup v)) (set_cached NONE e))
              (keys this)) this.

Definition ClearKey (this : KeyValues) (k : cstring) : KeyValues :=
  set_keys (update_first (key_is k)
              (fun e => set_cached NONE (set_value (Some (kvstrdup [])) e))
              (keys this)) this.

(** [RemoveKey] compares its argument with [it->value]. *)
Definition value_is (k : cstring) (e : Key) : bool :=
  match value e with
  | Some s => strcmp0 k s
  | None => false
  end.

Fixpoint erase_first (p : Key -> bool) (ks : list Key) : list Key :=
  match ks with
  | [] => []
  | e :: ks' => if p e then ks' else e :: erase_first p ks'
  end.

Definition RemoveKey (this : KeyValues) (k : cstring) : KeyValues :=
  set_keys (erase_first (value_is k) (keys this)) this.

(** ** The scanner: [KeyValues::ParseString] *)

Inductive EError : Type :=
| ENONE
| UNEXPECTED_EOF
| MISSING_BRACKET
| MISSING_QUOTE
| UNNAMED_SECTION
| UNTERMINATED_SECTION.

(** One call [ReportError(line, _char, err)]. *)
Record report : Type := mkReport {
  r_line : Z;
  r_char : Z;
  r_err : EError
}.

(** What the C program does that has no defined behaviour. *)
Inductive undefined : Type :=
| BufferOverrun      (* buf[i] with i >= 512 *)
| StackOverrun       (* stack[i] with i >= 512 *)
| StackUnderrun      (* stack[-1] *)
| NullName.          (* strlen(nullptr) *)

Definition BUF_SIZE : nat := 512.
Definition STACK_SIZE : nat := 512.

(** The objects [ParseString] works on.

    [stack[0..stackpos]] holds the sections that are open, the root first;
    each is the last child of the one before it, and [CurrentKV] is
    [stack[stackpos]].  [CurrentKV] is the section being filled and
    [below] is [stack[stackpos-1], ..., stack[0]]; a section on the stack
    does not list the open child above it: [document] puts every open
    section back as the last child of its parent, which is where
    [push_back] placed it when it was opened.

    [buf] is [buf[0..bufpos)].  [this_good] is [this->good] and [reports]
    are the calls of [ReportError] so far, the latest first. *)
Record locals : Type := mkLocals {
  nline : Z;
  nchar : Z;
  bracket_level : Z;
  inquote : bool;
  incomment : bool;
  parsed_key : bool;
  buf : list ascii;
  CurrentKey : Key;
  CurrentKV : KeyValues;
  below : list KeyValues;
  pc : ascii;
  nc : ascii;
  this_good : bool;
  reports : list report
}.

Definition set_nline (v : Z) (st : locals) : locals :=
  mkLocals v (nchar st) (bracket_level st) (inquote st) (incomment st)
    (parsed_key st) (buf st) (CurrentKey st) (CurrentKV st) (below st)
    (pc st) (nc st) (this_good st) (reports st).

Definition set_nchar (v : Z) (st : locals) : locals :=
  mkLocals (nline st) v (bracket_level st) (inquote st) (incomment st)
    (parsed_key st) (buf st) (CurrentKey st) (CurrentKV st) (below st)
    (pc st) (nc st) (this_good st) (reports st).

Definition set_bracket_level (v : Z) (st : locals) : locals :=
  mkLocals (nline st) (nchar st) v (inquote st) (incomment st)
    (parsed_key st) (buf st) (CurrentKey st) (CurrentKV st) (below st)
    (pc st) (nc st) (this_good st) (reports st).

Definition set_inquote (v : bool) (st : locals) : locals :=
  mkLocals (nline st) (nchar st) (bracket_level st) v (incomment st)
    (parsed_key st) (buf st) (CurrentKey st) (CurrentKV st) (below st)
    (pc st) (nc st) (this_good st) (reports st).

Definition set_incomment (v : bool) (st : locals) : locals :=
  mkLocals (nline st) (nchar st) (bracket_level st) (inquote st) v
    (parsed_key st) (buf st) (CurrentKey st) (CurrentKV st) (below st)
    (pc st) (nc st) (this_good st) (reports st).

Definition set_parsed_key (v : bool) (st : locals) : locals :=
  mkLocals (nline st) (nchar st) (bracket_level st) (inquote st)
    (incomment st) v (buf st) (CurrentKey st) (CurrentKV st) (below st)
    (pc st) (nc st) (this_good st) (reports st).

Definition set_buf (v : list ascii) (st : locals) : locals :=
  mkLocals (nline st) (nchar st) (bracket_level st) (inquote st)
    (incomment st) (parsed_key st) v (CurrentKey st) (CurrentKV st)
    (below st) (pc st) (nc st) (this_good st) (reports st).

Definition set_CurrentKey (v : Key) (st : locals) : locals :=
  mkLocals (nline st) (nchar st) (bracket_level st) (inquote st)
    (incomment st) (parsed_key st) (buf st) v (CurrentKV st) (below st)
    (pc st) (nc st) (this_good st) (reports st).

Definition set_CurrentKV (v : KeyValues) (st : locals) : locals :=
  mkLocals (nline st) (nchar st) (bracket_level st) (inquote st)
    (incomment st) (parsed_key st) (buf st) (CurrentKey st) v (below st)
    (pc st) (nc st) (this_good st) (reports st).

Definition set_below (v : list KeyValues) (st : locals) : locals :=
  mkLocals (nline st) (nchar st) (bracket_level st) (inquote st)
    (incomment st) (parsed_key st) (buf st) (CurrentKey st) (CurrentKV st) v
    (pc st) (nc st) (this_good st) (reports st).

Definition set_pc (v : ascii) (st : locals) : locals :=
  mkLocals (nline st) (nchar st) (bracket_level st) (inquote st)
    (incomment st) (parsed_key st) (buf st) (CurrentKey st) (CurrentKV st)
    (below st) v (nc st) (this_good st) (reports st).

Definition set_nc (v : ascii) (st : locals) : locals :=
  mkLocals (nline st) (nchar st) (bracket_level st) (inquote st)
    (incomment st) (parsed_key st) (buf st) (CurrentKey st) (CurrentKV st)
    (below st) (pc st) v (this_good st) (reports st).

(** [KeyValues::ReportError]: the callback is told, and [good] cleared. *)
Definition ReportError (line _char : Z) (err : EError) (st : locals) : locals :=
  mkLocals (nline st) (nchar st) (bracket_level st) (inquote st) (incomment st)
    (parsed_key st) (buf st) (CurrentKey st) (CurrentKV st) (below st) (pc st)
    (nc st) false (mkReport line _char err :: reports st).

Definition push_key (e : Key) (kv : KeyValues) : KeyValues :=
  set_keys (keys kv ++ [e]) kv.

Definition push_child (c : KeyValues) (kv : KeyValues) : KeyValues :=
  mkKeyValues (name kv) (good kv) (kv_quoted kv) (keys kv)
    (child_sections kv ++ [c]).

Definition set_kv_quoted (q : bool) (kv : KeyValues) : KeyValues :=
  mkKeyValues (name kv) (good kv) q (keys kv) (child_sections kv).

(** The block that stores the token in [buf], written three times in the
    source: at a newline ([q = None]: [CurrentKey.quoted] is left as it
    is), at a closing quote ([q = Some true]) and at white space
    ([q = Some false]).  [buf[bufpos] = 0] comes first. *)
Definition save_token (q : option bool) (st : locals) : locals :=
  let tok := kvstrdup (buf st) in
  let ck := CurrentKey st in
  let qd := match q with Some b => b | None => quoted ck end in
  if parsed_key st then
    set_buf []
      (set_CurrentKey (mkKey None None (cached ck) qd)
         (set_CurrentKV
            (push_key (mkKey (key ck) (Some tok) (cached ck) qd) (CurrentKV st))
            (set_parsed_key false st)))
  else
    set_buf []
      (set_parsed_key true
         (set_CurrentKey (mkKey (Some tok) (value ck) (cached ck) qd) st)).

(** How one run of the loop body ends. *)
Inductive iter : Type :=
| Continue (st : locals)     (* [continue] *)
| FallOut (st : locals)      (* the end of the body: white space is skipped *)
| Return (st : locals)       (* [return false] *)
| Undefined (u : undefined).

(** The body of the [for] loop at index [i], where [c = string[i]];
    [prev] is [string[i-1]] when [i > 0] and [next] is [string[i+1]] when
    [i < nlen - 1].  [look] is the three assignments at its top. *)
Definition look (prev next : option ascii) (st0 : locals) : locals :=
  let st1 := match prev with Some p => set_pc p st0 | None => st0 end in
  match next with Some n => set_nc n st1 | None => st1 end.

Definition body (prev : option ascii) (c : ascii) (next : option ascii)
    (st0 : locals) : iter :=
  let st := look prev next st0 in
  if Ascii.eqb c LF then
    if inquote st then
      Return (ReportError (nline st) (nchar st) MISSING_QUOTE st)
    else if (0 <? length (buf st)) && (BUF_SIZE <=? length (buf st)) then
      Undefined BufferOverrun
    else
      let st' := if 0 <? length (buf st) then save_token None st else st in
      Continue
        (set_nchar 0%Z
           (set_nline (nline st' + 1)%Z
              (set_inquote false (set_incomment false st'))))
  else if Ascii.eqb c SLASH
          && (Ascii.eqb (pc st) SLASH || Ascii.eqb (nc st) SLASH)
          && negb (inquote st) then
    Continue (set_incomment true st)
  else if incomment st then
    Continue st
  else if Ascii.eqb c DQUOTE then
    if inquote st then
      if BUF_SIZE <=? length (buf st) then Undefined BufferOverrun
      else Continue (save_token (Some true) (set_inquote false st))
    else Continue (set_inquote true st)
  else if negb (inquote st) && Ascii.eqb c LBRACE then
    let opened :=
      if parsed_key st then
        match key (CurrentKey st) with
        | Some k =>
            let ck := CurrentKey st in
            inl (KeyValues_named k,
                 set_CurrentKey
                   (mkKey None (value ck) (cached ck) (quoted ck)) st)
        | None => inr (Undefined NullName)
        end
      else if 0 <? length (buf st) then
        if BUF_SIZE <=? length (buf st) then inr (Undefined BufferOverrun)
        else inl (KeyValues_named (buf st), set_buf [] st)
      else
        inr (Return (ReportError (nline st) (nchar st) UNNAMED_SECTION st))
    in
    match opened with
    | inr r => r
    | inl (pKV0, st') =>
        let pKV :=
          if quoted (CurrentKey st') then set_kv_quoted true pKV0 else pKV0 in
        if STACK_SIZE <=? S (length (below st')) then Undefined StackOverrun
        else
          Continue
            (set_bracket_level (bracket_level st' + 1)%Z
               (set_below (CurrentKV st' :: below st')
                  (set_CurrentKV pKV (set_parsed_key false st'))))
    end
  else if negb (inquote st) && Ascii.eqb c RBRACE then
    match below st with
    | [] => Undefined StackUnderrun
    | parent :: rest =>
        Continue
          (set_bracket_level (bracket_level st - 1)%Z
             (set_below rest
                (set_CurrentKV (push_child (CurrentKV st) parent) st)))
    end
  else if negb (_internal_isspace c) || inquote st then
    if BUF_SIZE <=? length (buf st) then Undefined BufferOverrun
    else Continue (set_buf (buf st ++ [c]) st)
  else if _internal_isspace c && negb (inquote st)
          && (0 <? length (buf st)) then
    if BUF_SIZE <=? length (buf st) then Undefined BufferOverrun
    else FallOut (save_token (Some false) (set_inquote false st))
  else
    FallOut st.

(** How the loop ends. *)
Inductive scanned : Type :=
| Finished (st : locals)       (* [i < nlen] failed *)
| Aborted (st : locals)        (* [return false] inside the loop *)
| Crashed (u : undefined).

(** The increment [i++, nchar++] of the [for].  The counters are [int]s
    that stay below the length of the text, which is taken to be less
    than 2^31. *)
Definition next_char (st : locals) : locals :=
  set_nchar (nchar st + 1)%Z st.

(** The loop from index [i] on: [rest] is [string[i..nlen)] and [prev] is
    [string[i-1]] when [i > 0].  The inner [skip] is the trailing
    [for (; i < nlen - 1 && _internal_isspace(string[i + 1]); i++)], with
    [p] the character at [i]. *)
Fixpoint scan (prev : option ascii) (rest : list ascii) (st : locals)
    {struct rest} : scanned :=
  match rest with
  | [] => Finished st
  | c :: rest' =>
      match body prev c (hd_error rest') st with
      | Return st' => Aborted st'
      | Undefined u => Crashed u
      | Continue st' => scan (Some c) rest' (next_char st')
      | FallOut st' =>
          (fix skip (p : ascii) (r : list ascii) {struct r} : scanned :=
             match r with
             | w :: r' =>
                 if _internal_isspace w then skip w r'
                 else scan (Some p) r (next_char st')
             | [] => Finished (next_char st')
             end) c rest'
      end
  end.

(** The same skipping as a function: the last character passed over and
    what is left. *)
Fixpoint skip_ws (p : ascii) (r : list ascii) : ascii * list ascii :=
  match r with
  | w :: r' => if _internal_isspace w then skip_ws w r' else (p, r)
  | [] => (p, [])
  end.

(** The tree as it stands: every open section is the last child of the
    section that was open when it was entered. *)
Fixpoint close_all (cur : KeyValues) (open : list KeyValues) : KeyValues :=
  match open with
  | [] => cur
  | parent :: rest => close_all (push_child cur parent) rest
  end.

Definition document (st : locals) : KeyValues :=
  set_good (this_good st) (close_all (CurrentKV st) (below st)).

(** What a call of [ParseString] amounts to: the value returned, the
    object [*this] after the call and the errors reported, the first one
    first; or no defined behaviour. *)
Inductive outcome : Type :=
| Returned (ret : bool) (this : KeyValues) (errors : list report)
| NoBehaviour (u : undefined).

(** The checks after the loop, and [return good]. *)
Definition finish (st : locals) : outcome :=
  let st1 := if inquote st then ReportError (-1) 0 MISSING_QUOTE st else st in
  let st2 :=
    if (0 <? bracket_level st1)%Z
    then ReportError (-1) 0 UNTERMINATED_SECTION st1 else st1 in
  Returned (this_good st2) (document st2) (rev (reports st2)).

(** The locals that the source leaves uninitialised and reads: [pc] in
    the first run of the body, [nc] when the text has one character, and
    [CurrentKey.quoted] until a token has set it. *)
Record garbage : Type := mkGarbage {
  g_pc : ascii;
  g_nc : ascii;
  g_quoted : bool
}.

(** The state on entry to the loop: [this->good = true] has been done. *)
Definition enter (g : garbage) (this : KeyValues) : locals :=
  mkLocals 0 0 0 false false false [] (mkKey None None NONE (g_quoted g))
    this [] (g_pc g) (g_nc g) true [].

(** What holds on entry to the loop and as long as it goes on: no error
    so far, and [bracket_level] is the height of the stack. *)
Definition sound (st : locals) : Prop :=
  this_good st = true /\ reports st = []
  /\ bracket_level st = Z.of_nat (length (below st)).

(** [ParseString(string, escape, len)]: [escape] is not used.  [string]
    is what the pointer points to; with [len < 0] the text is what comes
    before the first NUL, otherwise its first [len] characters. *)
Definition text_of (string : list ascii) (len : Z) : list ascii :=
  if (len <? 0)%Z then c_str string else firstn (Z.to_nat len) string.

Definition ParseString (g : garbage) (this : KeyValues) (string : list ascii)
    (len : Z) : outcome :=
  match scan None (text_of string len) (enter g this) with
  | Finished st => finish st
  | Aborted st => Returned false (document st) (rev (reports st))
  | Crashed u => NoBehaviour u
  end.

(** [ParseFile]: [contents] is the file, [None] when [fopen] fails. *)
Definition ParseFile (g : garbage) (this : KeyValues)
    (contents : option (list ascii)) : outcome :=
  match contents with
  | None => Returned false (set_good false this) []
  | Some buffer =>
      match ParseString g this buffer (Z.of_nat (length buffer)) with
      | Returned _ this' errs => Returned (good this') this' errs
      | NoBehaviour u => NoBehaviour u
      end
  end.

(** [FromString] and [FromFile]: the pointer returned, [None] for
    [nullptr] (the object has been deleted). *)
Inductive created : Type :=
| Pointer (kv : option KeyValues)
| NoBehaviour' (u : undefined).

Definition FromString (g : garbage) (string : list ascii) : created :=
  match ParseString g KeyValues_new string (-1) with
  | Returned true kv _ => Pointer (Some kv)
  | Returned false _ _ => Pointer None
  | NoBehaviour u => NoBehaviour' u
  end.

Definition FromFile (g : garbage) (contents : option (list ascii)) : created :=
  match ParseFile g KeyValues_new contents with
  | Returned true kv _ => Pointer (Some kv)
  | Returned false _ _ => Pointer None
  | NoBehaviour u => NoBehaviour' u
  end.

(** ** The serializer: [KeyValues::DumpToStreamInternal] *)

Definition MAX_INDENT_LEVEL : nat := 128.

Definition tabs (n : nat) : list ascii := repeat TAB n.

(** What [%s] prints; for a null pointer glibc prints (null). *)
Definition show (p : option cstring) : list ascii :=
  match p with
  | Some s => s
  | None => str "(null)"
  end.

(** One entry: the indentation, the key (between quotes when
    [key.quoted]), a space, the value between quotes, a newline. *)
Definition dump_key (indent_buf : list ascii) (e : Key) : list ascii :=
  if quoted e then
    indent_buf ++ [DQUOTE] ++ show (key e) ++ [DQUOTE; SPACE; DQUOTE]
      ++ show (value e) ++ [DQUOTE; LF]
  else
    indent_buf ++ show (key e) ++ [SPACE; DQUOTE] ++ show (value e)
      ++ [DQUOTE; LF].

(** What a call writes, or that it has no defined behaviour: the
    indentation is kept in [char buf[MAX_INDENT_LEVEL+1]], and a section
    that has a name extends it by one tab and ends it at
    [buf[indent + 1]], which at [indent = MAX_INDENT_LEVEL] is one past
    the array. *)
Inductive written (A : Type) : Type :=
| Written (a : A)
| IndentOverrun.

Arguments Written {A} a.
Arguments IndentOverrun {A}.

(** The [for] over [child_sections]: one call after the other. *)
Definition write_all {A : Type} (f : A -> written (list ascii))
    : list A -> written (list ascii) :=
  fix each (l : list A) : written (list ascii) :=
    match l with
    | [] => Written []
    | x :: l' =>
        match f x with
        | Written a =>
            match each l' with
            | Written b => Written (a ++ b)
            | IndentOverrun => IndentOverrun
            end
        | IndentOverrun => IndentOverrun
        end
    end.

(** [DumpToStreamInternal(fs, indent)] on a stream that is not null: the
    text written. *)
Fixpoint DumpToStreamInternal (this : KeyValues) (indent : nat)
    : written (list ascii) :=
  if MAX_INDENT_LEVEL <? indent then Written []
  else
    let buf0 := tabs indent in
    match name this with
    | Some nm =>
        if MAX_INDENT_LEVEL <? indent + 1 then IndentOverrun
        else
          match write_all
                  (fun section => DumpToStreamInternal section (indent + 1))
                  (child_sections this) with
          | Written sections =>
              Written
                ((if kv_quoted this
                  then buf0 ++ [DQUOTE] ++ nm ++ [DQUOTE; LF] ++ buf0
                       ++ [LBRACE; LF]
                  else buf0 ++ nm ++ [LF] ++ buf0 ++ [LBRACE; LF])
                 ++ flat_map (dump_key (tabs (indent + 1))) (keys this)
                 ++ sections
                 ++ buf0 ++ [RBRACE; LF])
          | IndentOverrun => IndentOverrun
          end
    | None =>
        match write_all
                (fun section => DumpToStreamInternal section (indent + 1))
                (child_sections this) with
        | Written sections =>
            Written (flat_map (dump_key buf0) (keys this) ++ sections)
        | IndentOverrun => IndentOverrun
        end
    end.

(** [DumpToStream(fs)]: the stream after the call; nothing happens to a
    null stream. *)
Definition DumpToStream (this : KeyValues) (fs : option (list ascii))
    : written (option (list ascii)) :=
  match fs with
  | None => Written None
  | Some out =>
      match DumpToStreamInternal this 0 with
      | Written text => Written (Some (out ++ text))
      | IndentOverrun => IndentOverrun
      end
  end.

(** The text of a call in which every write stays within [buf]: what its
    [fprintf] statements print, in their order. *)
Fixpoint dump_text (this : KeyValues) (indent : nat) : list ascii :=
  if MAX_INDENT_LEVEL <? indent then []
  else
    let buf0 := tabs indent in
    match name this with
    | Some nm =>
        (if kv_quoted this
         then buf0 ++ [DQUOTE] ++ nm ++ [DQUOTE; LF] ++ buf0 ++ [LBRACE; LF]
         else buf0 ++ nm ++ [LF] ++ buf0 ++ [LBRACE; LF])
        ++ flat_map (dump_key (tabs (indent + 1))) (keys this)
        ++ flat_map (fun section => dump_text section (indent + 1))
             (child_sections this)
        ++ buf0 ++ [RBRACE; LF]
    | None =>
        flat_map (dump_key buf0) (keys this)
        ++ flat_map (fun section => dump_text section (indent + 1))
             (child_sections this)
    end.

(** ** Structure of a tree, and trees that can be written and read back *)

(** Names, entries in order, children in order. *)
Unset Elimination Schemes.
Set Elimination Schemes.


(** A character that may stand in a token written without quotes. *)
Definition plain_char (c : ascii) : bool :=
  negb (_internal_isspace c) && negb (Ascii.eqb c DQUOTE)
  && negb (Ascii.eqb c LBRACE) && negb (Ascii.eqb c RBRACE)
  && negb (Ascii.eqb c NUL).

(** No slash of [t] comes right after a slash, [p] being the character
    before [t]. *)
Fixpoint slashes_apart (p : ascii) (t : cstring) : bool :=
  match t with
  | [] => true
  | c :: t' =>
      negb (Ascii.eqb c SLASH && Ascii.eqb p SLASH) && slashes_apart c t'
  end.

(** A character that may stand between quotes. *)
Definition quoted_char (c : ascii) : bool :=
  negb (Ascii.eqb c DQUOTE) && negb (Ascii.eqb c LF) && negb (Ascii.eqb c NUL).

(** A token that is read back when written without quotes: it is not
    empty, and nothing in it starts a comment: no two slashes in a row,
    and no slash at its start, which the scanner compares with the
    character before the token (for the first token of a text, with a
    variable that has no value yet). *)
Definition plain_token (t : cstring) : bool :=
  (0 <? length t) && (length t <? BUF_SIZE) && forallb plain_char t
  && slashes_apart SLASH t.

(** The character before the one looked at, taken to be a slash when the
    scanner has none. *)
Definition char_before (prev : option ascii) : ascii :=
  match prev with
  | Some p => p
  | None => SLASH
  end.

(** Whether [pc] (or [nc]) may hold a slash: [None] is the variable left
    as it was. *)
Definition may_be_slash (o : option ascii) : bool :=
  match o with
  | Some x => Ascii.eqb x SLASH
  | None => true
  end.

Definition quoted_token (t : cstring) : bool :=
  (length t <? BUF_SIZE) && forallb quoted_char t.

(** Quoting is consistent when a token that is written without quotes can
    be read without them. *)
Definition token_ok (q : bool) (t : option cstring) : bool :=
  match t with
  | Some s => if q then quoted_token s else plain_token s
  | None => false
  end.

Definition key_ok (e : Key) : bool :=
  token_ok (quoted e) (key e) && token_ok true (value e).

(** A section at nesting depth [depth] (the children of the root are at
    depth 1), which is also the indentation it is written at. *)
Fixpoint section_ok (depth : nat) (kv : KeyValues) : bool :=
  (depth <? MAX_INDENT_LEVEL)
  && token_ok (kv_quoted kv) (name kv)
  && forallb key_ok (keys kv)
  && forallb (section_ok (S depth)) (child_sections kv).

(** A document: the root has no name. *)
Definition document_ok (kv : KeyValues) : bool :=
  match name kv with
  | None =>
      forallb key_ok (keys kv) && forallb (section_ok 1) (child_sections kv)
  | Some _ => false
  end.

(** ** Small documents for the examples *)

Definition entry (k v : string) : Key :=
  mkKey (Some (str k)) (Some (str v)) NONE false.

Definition section_of (ks : list Key) : KeyValues :=
  mkKeyValues None true false ks [].

(** ** A tree that has grown

    Every section of the first tree is in the second, in the same place
    and under the same name, and its entries are the first entries of
    that section in the second tree. *)
Unset Elimination Schemes.
Inductive extends : KeyValues -> KeyValues -> Prop :=
| extends_section (nm : option cstring) (g g' q : bool) (ks ks' : list Key)
    (cs cs1 cs2 : list KeyValues) :
    Forall2 extends cs cs1 ->
    extends (mkKeyValues nm g q ks cs)
      (mkKeyValues nm g' q (ks ++ ks') (cs1 ++ cs2)).
Set Elimination Schemes.

(** ** Operations on a document, for statements about sequences of calls *)

Inductive operation : Type :=
| OpParseString (string : list ascii) (len : Z)
| OpParseFile (contents : option (list ascii))
| OpGetBool (k : cstring) (d : bool)
| OpGetInt (errno : Z) (k : cstring) (d : Z)
| OpSetBool (k : cstring) (v : bool)
| OpSetInt (k : cstring) (v : Z)
| OpSetFloat (k : cstring) (v : spec_float)
| OpSetString (k : cstring) (v : cstring)
| OpClearKey (k : cstring)
| OpRemoveKey (k : cstring)
| OpDumpToStream (fs : option (list ascii)).

Definition is_parse (op : operation) : bool :=
  match op with
  | OpParseString _ _ | OpParseFile _ => true
  | _ => false
  end.

(** The document after the call; [None] when the call has no defined
    behaviour. *)
Definition perform (g : garbage) (op : operation) (kv : KeyValues)
    : option KeyValues :=
  match op with
  | OpParseString s len =>
      match ParseString g kv s len with
      | Returned _ kv' _ => Some kv'
      | NoBehaviour _ => None
      end
  | OpParseFile contents =>
      match ParseFile g kv contents with
      | Returned _ kv' _ => Some kv'
      | NoBehaviour _ => None
      end
  | OpGetBool k d => Some (fst (GetBool kv k d))
  | OpGetInt errno k d => Some (fst (fst (GetInt errno kv k d)))
  | OpSetBool k v => Some (SetBool kv k v)
  | OpSetInt k v => Some (SetInt kv k v)
  | OpSetFloat k v => Some (SetFloat kv k v)
  | OpSetString k v => Some (SetString kv k v)
  | OpClearKey k => Some (ClearKey kv k)
  | OpRemoveKey k => Some (RemoveKey kv k)
  | OpDumpToStream fs =>
      match DumpToStream kv fs with
      | Written _ => Some kv
      | IndentOverrun => None
      end
  end.

Fixpoint perform_all (g : garbage) (ops : list operation) (kv : KeyValues)
    : option KeyValues :=
  match ops with
  | [] => Some kv
  | op :: ops' =>
      match perform g op kv with
      | Some kv' => perform_all g ops' kv'
      | None => None
      end
  end.

(** The two situations in which the loop body reports an error and
    returns: character [c] is met in state [st], and [e] is reported. *)
Definition fatal_case (c : ascii) (st : locals) (e : EError) : Prop :=
  (c = LF /\ inquote st = true /\ e = MISSING_QUOTE)
  \/ (c = LBRACE /\ inquote st = false /\ incomment st = false
      /\ parsed_key st = false /\ buf st = [] /\ e = UNNAMED_SECTION).

Definition g0 : garbage := mkGarbage NUL NUL false.

(** The key [k], then a quoted value that runs into the end of the line. *)
Definition text_quote_break : list ascii :=
  str "k " ++ DQUOTE :: str "unterminated" ++ LF :: str "more".

(** An entry, then section [A] left open and inside it a quote left
    open. *)
Definition text_unfinished : list ascii :=
  str "k v" ++ LF :: str "A {" ++ LF :: str "x " ++ DQUOTE :: str "y".

(** A key and a value, then a brace that nothing names. *)
Definition text_unnamed : list ascii :=
  str "k v" ++ LF :: str "{".

(** ** What the scanner's next steps depend on

    Apart from [pc] and [nc], which only matter at a slash outside
    quotes, and from the counters and the error log. *)
Record core_t : Type := mkCore {
  c_inquote : bool;
  c_incomment : bool;
  c_parsed_key : bool;
  c_buf : list ascii;
  c_CurrentKey : Key;
  c_CurrentKV : KeyValues;
  c_below : list KeyValues
}.

Definition core (st : locals) : core_t :=
  mkCore (inquote st) (incomment st) (parsed_key st) (buf st) (CurrentKey st)
    (CurrentKV st) (below st).






Definition no_nul (s : list ascii) : bool :=
  forallb (fun c => negb (Ascii.eqb c NUL)) s.


(** The key is written between quotes and the value is not. *)
Definition text_mixed_quotes : list ascii :=
  DQUOTE :: str "a b" ++ DQUOTE :: str " v ".

(** ** The calls that change one entry in place *)

Inductive change : Type :=
| ToBool (v : bool)
| ToInt (v : Z)
| ToFloat (v : spec_float)
| ToString (v : cstring)
| Cleared.

Definition apply_change (c : change) (this : KeyValues) (k : cstring)
    : KeyValues :=
  match c with
  | ToBool v => SetBool this k v
  | ToInt v => SetInt this k v
  | ToFloat v => SetFloat this k v
  | ToString v => SetString this k v
  | Cleared => ClearKey this k
  end.

(** * Properties *)

(** ** C strings *)

Lemma strcmp0_refl (a : cstring) : strcmp0 a a = true.
Proof.
  induction a as [|x a IH]; simpl; [reflexivity|].
  now rewrite Ascii.eqb_refl, IH.
Qed.

Lemma strcmp0_eq (a b : cstring) : strcmp0 a b = true <-> a = b.
Proof.
  split; [|intros ->; apply strcmp0_refl].
  revert b; induction a as [|x a IH]; intros [|y b]; simpl; try congruence.
  intros H; apply andb_true_iff in H as [Hxy Hab].
  apply Ascii.eqb_eq in Hxy; apply IH in Hab; congruence.
Qed.

Lemma strcmp0_neq (a b : cstring) : a <> b -> strcmp0 a b = false.
Proof.
  intros H; destruct (strcmp0 a b) eqn:E; [|reflexivity].
  now apply strcmp0_eq in E.
Qed.

Lemma set_keys_same (kv : KeyValues) : set_keys (keys kv) kv = kv.
Proof. now destruct kv. Qed.

(** ** Walking the entries *)

Lemma find_none_all (p : Key -> bool) (ks : list Key) :
  find p ks = None <-> Forall (fun e => p e = false) ks.
Proof.
  induction ks as [|e ks IH]; simpl.
  - split; [constructor | reflexivity].
  - destruct (p e) eqn:E.
    + split; [discriminate | intros H; inversion H; congruence].
    + rewrite IH; split; [now constructor | intros H; now inversion H].
Qed.

Lemma find_first (p : Key -> bool) (l1 l2 : list Key) (e : Key) :
  Forall (fun x => p x = false) l1 -> p e = true ->
  find p (l1 ++ e :: l2) = Some e.
Proof.
  induction 1 as [|x l1 Hx _ IH]; simpl; intros He.
  - now rewrite He.
  - rewrite Hx; auto.
Qed.

Lemma update_first_none (p : Key -> bool) (f : Key -> Key) (ks : list Key) :
  Forall (fun e => p e = false) ks -> update_first p f ks = ks.
Proof.
  induction 1 as [|e ks He _ IH]; simpl; [reflexivity|].
  now rewrite He, IH.
Qed.

Lemma update_first_hit (p : Key -> bool) (f : Key -> Key)
    (l1 l2 : list Key) (e : Key) :
  Forall (fun x => p x = false) l1 -> p e = true ->
  update_first p f (l1 ++ e :: l2) = l1 ++ f e :: l2.
Proof.
  induction 1 as [|x l1 Hx _ IH]; simpl; intros He.
  - now rewrite He.
  - now rewrite Hx, IH.
Qed.

Lemma erase_first_none (p : Key -> bool) (ks : list Key) :
  Forall (fun e => p e = false) ks -> erase_first p ks = ks.
Proof.
  induction 1 as [|e ks He _ IH]; simpl; [reflexivity|].
  now rewrite He, IH.
Qed.

Lemma erase_first_hit (p : Key -> bool) (l1 l2 : list Key) (e : Key) :
  Forall (fun x => p x = false) l1 -> p e = true ->
  erase_first p (l1 ++ e :: l2) = l1 ++ l2.
Proof.
  induction 1 as [|x l1 Hx _ IH]; simpl; intros He.
  - now rewrite He.
  - now rewrite Hx, IH.
Qed.

Lemma value_is_iff (k : cstring) (e : Key) :
  value_is k e = true <-> value e = Some k.
Proof.
  unfold value_is; destruct (value e) as [s|].
  - rewrite strcmp0_eq; split; congruence.
  - split; discriminate.
Qed.

Lemma key_is_iff (k : cstring) (e : Key) :
  key_is k e = true <-> key e = Some k.
Proof.
  unfold key_is; destruct (key e) as [s|].
  - rewrite strcmp0_eq; split; congruence.
  - split; discriminate.
Qed.

Lemma not_true_forall (p : Key -> bool) (P : Key -> Prop) (ks : list Key) :
  (forall e, p e = true <-> P e) ->
  Forall (fun e => ~ P e) ks -> Forall (fun e => p e = false) ks.
Proof.
  intros Hp H; induction H as [|e ks He _ IH]; constructor; auto.
  destruct (p e) eqn:E; [|reflexivity].
  now apply Hp in E.
Qed.

(** ** Getters *)

(** A getter leaves the section as it found it: the entry whose cache a
    read fills is the loop's copy. *)
Lemma GetInt_leaves_section (errno : Z) (this : KeyValues) (k : cstring)
    (d : Z) :
  fst (fst (GetInt errno this k d)) = this.
Proof.
  unfold GetInt; destruct (find (key_is k) (keys this)) as [e|]; [|reflexivity].
  destruct (ReadInt errno e) as [[[e' i] ok] errno']; reflexivity.
Qed.

Lemma GetBool_leaves_section (this : KeyValues) (k : cstring) (d : bool) :
  fst (GetBool this k d) = this.
Proof.
  unfold GetBool; destruct (find (key_is k) (keys this)) as [e|];
    [|reflexivity].
  destruct (ReadBool e) as [[e' b] ok]; reflexivity.
Qed.

(** With no entry of that key every getter answers the default. *)
Lemma getters_missing_key (errno : Z) (this : KeyValues) (k : cstring)
    (db : bool) (di : Z) :
  Forall (fun e => key e <> Some k) (keys this) ->
  GetBool this k db = (this, db) /\ GetInt errno this k di = (this, di, errno).
Proof.
  intros H.
  assert (F : find (key_is k) (keys this) = None).
  { apply find_none_all.
    apply not_true_forall with (P := fun e => key e = Some k); [|exact H].
    intros e; apply key_is_iff. }
  unfold GetBool, GetInt; now rewrite F.
Qed.

(** [GetBool] answers the default for an empty value, and for any value
    that is none of the four spellings. *)
Lemma GetBool_empty_value (l1 l2 : list Key) (e : Key) (k : cstring)
    (d : bool) :
  Forall (fun x => key_is k x = false) l1 -> key e = Some k ->
  value e = Some [] -> cached e = NONE ->
  snd (GetBool (section_of (l1 ++ e :: l2)) k d) = d.
Proof.
  intros H1 Hk Hv Hc; unfold GetBool; simpl.
  rewrite (find_first _ l1 l2 e H1) by now apply key_is_iff.
  unfold ReadBool; now rewrite Hc, Hv.
Qed.

Section StrtodOnNothing.

(** [strtod], like [strtol], converts nothing out of the empty string and
    then leaves [errno] alone. *)
Variable strtod : Z -> cstring -> spec_float * Z.
Hypothesis strtod_nothing :
  forall errno, strtod errno [] = (S754_zero false, errno).

Lemma GetDouble_empty_value (d : spec_float) :
  GetDouble strtod 0 (section_of [entry "k" ""]) (str "k") d
  = (S754_zero false, 0%Z).
Proof.
  unfold GetDouble; simpl; unfold ReadFloat; simpl.
  now rewrite strtod_nothing.
Qed.

End StrtodOnNothing.

(** C1 (the code departs from the claim).  [GetInt] on an entry whose
    value is the empty string, or has no digit at all, answers 0 and not
    the default: [strtol] reports nothing through [errno] when it converts
    nothing, and [errno == 0] is the only test [ReadInt] makes.  And since
    nothing resets [errno], an entry that does parse is answered with the
    default when [errno] was already set on entry. *)
Theorem GetInt_value_that_does_not_parse :
  GetInt 0 (section_of [entry "k" ""]) (str "k") (-1)
    = (section_of [entry "k" ""], 0%Z, 0%Z)
  /\ GetInt 0 (section_of [entry "k" "abc"]) (str "k") (-1)
    = (section_of [entry "k" "abc"], 0%Z, 0%Z)
  /\ GetInt ERANGE (section_of [entry "k" "12"]) (str "k") (-1)
    = (section_of [entry "k" "12"], (-1)%Z, ERANGE)
  /\ GetInt 0 (section_of [entry "k" "12"]) (str "k") (-1)
    = (section_of [entry "k" "12"], 12%Z, 0%Z).
Proof. repeat split; vm_compute; reflexivity. Qed.

(** C2 (the code departs from the claim).  A read through a getter never
    reaches the entry's cache: after [GetInt] has parsed 12 out of entry
    [a] the section is unchanged, the cache of [a] is still [NONE], and
    the next [GetInt] of [a] parses the string again.  Reading the
    out-of-range entry [b] in between leaves [errno = ERANGE], and the
    second read of [a] then answers the default instead of 12. *)
Theorem GetInt_does_not_fill_cache :
  (forall errno this k d, fst (fst (GetInt errno this k d)) = this)
  /\ let kv := section_of [entry "a" "12"; entry "b" "99999999999999999999"] in
     GetInt 0 kv (str "a") (-1) = (kv, 12%Z, 0%Z)
     /\ map cached (keys kv) = [NONE; NONE]
     /\ GetInt 0 kv (str "b") (-1) = (kv, (-1)%Z, ERANGE)
     /\ GetInt ERANGE kv (str "a") (-1) = (kv, (-1)%Z, ERANGE).
Proof.
  split; [exact GetInt_leaves_section|].
  repeat split; vm_compute; reflexivity.
Qed.

(** ** Setters *)

(** C4, as the code has it.  For a key that no entry has, every setter
    leaves the section as it is.  Otherwise the first entry of that key is
    changed in place: [SetBool], [SetInt] and [SetFloat] replace its cache
    and leave its string value alone; [SetString] replaces the string and
    empties the cache. *)
Theorem setters_change_first_match (this : KeyValues) (k : cstring) :
  (Forall (fun e => key e <> Some k) (keys this) ->
   forall b i f s,
     SetBool this k b = this /\ SetInt this k i = this
     /\ SetFloat this k f = this /\ SetString this k s = this)
  /\ (forall l1 e l2,
       keys this = l1 ++ e :: l2 ->
       Forall (fun x => key x <> Some k) l1 -> key e = Some k ->
       forall b i f s,
         SetBool this k b
           = set_keys
               (l1 ++ mkKey (key e) (value e) (BOOL b) (quoted e) :: l2) this
         /\ SetInt this k i
           = set_keys
               (l1 ++ mkKey (key e) (value e) (INT i) (quoted e) :: l2) this
         /\ SetFloat this k f
           = set_keys
               (l1 ++ mkKey (key e) (value e) (FLOAT f) (quoted e) :: l2) this
         /\ SetString this k s
           = set_keys
               (l1 ++ mkKey (key e) (Some (kvstrdup s)) NONE (quoted e) :: l2)
               this).
Proof.
  assert (Hk : forall l, Forall (fun e => key e <> Some k) l ->
                         Forall (fun e => key_is k e = false) l).
  { intros l; apply not_true_forall; intros e; apply key_is_iff. }
  split.
  - intros H b i f s; apply Hk in H.
    unfold SetBool, SetInt, SetFloat, SetString.
    rewrite !update_first_none by assumption.
    now rewrite set_keys_same.
  - intros l1 e l2 E H1 He b i f s; apply Hk in H1.
    apply key_is_iff in He.
    unfold SetBool, SetInt, SetFloat, SetString; rewrite E.
    rewrite !update_first_hit by assumption.
    repeat split.
Qed.

(** C4: an instance with both cases. *)
Lemma setters_change_first_match_witness :
  let kv := section_of [entry "a" "1"; entry "k" "2"; entry "k" "3"] in
  SetInt kv (str "zz") 5 = kv
  /\ SetInt kv (str "k") 5
     = section_of [entry "a" "1";
                   mkKey (Some (str "k")) (Some (str "2")) (INT 5) false;
                   entry "k" "3"]
  /\ SetString kv (str "k") (str "x")
     = section_of [entry "a" "1"; entry "k" "x"; entry "k" "3"].
Proof.
  intros kv.
  destruct (setters_change_first_match kv (str "zz")) as [Hmiss _].
  destruct (setters_change_first_match kv (str "k")) as [_ Hhit].
  split.
  - apply (Hmiss ltac:(repeat constructor; discriminate)
             true 5%Z (S754_zero false) []).
  - specialize (Hhit [entry "a" "1"] (entry "k" "2") [entry "k" "3"] eq_refl
                  ltac:(repeat constructor; discriminate) eq_refl
                  true 5%Z (S754_zero false) (str "x")).
    destruct Hhit as (_ & Hi & _ & Hs); split; [exact Hi | exact Hs].
Defined.

(** C4 as stated fails: [SetInt] does not overwrite the entry's value.
    After [SetInt("k", 5)] the value is still the string 1, which is what
    [GetString] returns. *)
Lemma SetInt_keeps_string_value :
  let kv := SetInt (section_of [entry "k" "1"]) (str "k") 5 in
  map value (keys kv) = [Some (str "1")]
  /\ map cached (keys kv) = [INT 5]
  /\ GetString kv (str "k") None = Some (str "1").
Proof. repeat split. Qed.

(** C5.  [RemoveKey(k)] erases the first entry whose value is [k] and
    keeps the others in their order; with no such entry the section is
    unchanged. *)
Theorem RemoveKey_erases_first_value (this : KeyValues) (k : cstring) :
  (forall l1 e l2,
     keys this = l1 ++ e :: l2 ->
     Forall (fun x => value x <> Some k) l1 -> value e = Some k ->
     RemoveKey this k = set_keys (l1 ++ l2) this)
  /\ (Forall (fun x => value x <> Some k) (keys this) ->
      RemoveKey this k = this).
Proof.
  assert (Hk : forall l, Forall (fun e => value e <> Some k) l ->
                         Forall (fun e => value_is k e = false) l).
  { intros l; apply not_true_forall; intros e; apply value_is_iff. }
  unfold RemoveKey; split.
  - intros l1 e l2 E H1 He; rewrite E.
    rewrite erase_first_hit; auto.
    now apply value_is_iff.
  - intros H; rewrite erase_first_none by auto.
    apply set_keys_same.
Qed.

(** C5: an instance.  The entry erased is the one whose value is the
    argument, though another entry has it as its key. *)
Lemma RemoveKey_erases_first_value_witness :
  let kv := section_of [entry "x" "1"; entry "a" "x"; entry "b" "x"] in
  RemoveKey kv (str "x") = section_of [entry "x" "1"; entry "b" "x"]
  /\ RemoveKey kv (str "a") = kv.
Proof.
  intros kv.
  destruct (RemoveKey_erases_first_value kv (str "x")) as [Hhit _].
  destruct (RemoveKey_erases_first_value kv (str "a")) as [_ Hmiss].
  split.
  - apply (Hhit [entry "x" "1"] (entry "a" "x") [entry "b" "x"] eq_refl);
      [repeat constructor; discriminate | reflexivity].
  - apply Hmiss; repeat constructor; discriminate.
Defined.

(** ** The scanner *)

Lemma skip_ws_length (p : ascii) (r : list ascii) :
  length (snd (skip_ws p r)) <= length r.
Proof.
  revert p; induction r as [|w r IH]; intros p; simpl; [lia|].
  destruct (_internal_isspace w); simpl; [specialize (IH w)|]; lia.
Qed.

(** One turn of the loop. *)
Lemma scan_cons (prev : option ascii) (c : ascii) (rest : list ascii)
    (st : locals) :
  scan prev (c :: rest) st =
  match body prev c (hd_error rest) st with
  | Return st' => Aborted st'
  | Undefined u => Crashed u
  | Continue st' => scan (Some c) rest (next_char st')
  | FallOut st' =>
      scan (Some (fst (skip_ws c rest))) (snd (skip_ws c rest)) (next_char st')
  end.
Proof.
  simpl; destruct (body prev c (hd_error rest) st) as [st'|st'|st'|u];
    try reflexivity.
  generalize c; induction rest as [|w r IH]; intros p; simpl; [reflexivity|].
  destruct (_internal_isspace w); [apply IH | reflexivity].
Qed.

Arguments scan : simpl never.

(** Induction over the turns of the loop. *)
Lemma scan_induction (P : list ascii -> locals -> scanned -> Prop) :
  (forall st, P [] st (Finished st)) ->
  (forall prev c rest st st',
      body prev c (hd_error rest) st = Return st' ->
      P (c :: rest) st (Aborted st')) ->
  (forall prev c rest st u,
      body prev c (hd_error rest) st = Undefined u ->
      P (c :: rest) st (Crashed u)) ->
  (forall prev c rest st st' prev' rest',
      body prev c (hd_error rest) st = Continue st'
      \/ body prev c (hd_error rest) st = FallOut st' ->
      P rest' (next_char st') (scan prev' rest' (next_char st')) ->
      P (c :: rest) st (scan prev' rest' (next_char st'))) ->
  forall prev rest st, P rest st (scan prev rest st).
Proof.
  intros Hnil Hret Hund Hstep prev rest.
  remember (length rest) as n eqn:En.
  revert prev rest En.
  induction n as [n IH] using lt_wf_ind; intros prev [|c rest] En st.
  - apply Hnil.
  - rewrite scan_cons.
    destruct (body prev c (hd_error rest) st) as [st'|st'|st'|u] eqn:B.
    + eapply Hstep; [left; exact B|].
      eapply IH; [|reflexivity]; simpl in En; lia.
    + eapply Hstep; [right; exact B|].
      eapply IH; [|reflexivity].
      pose proof (skip_ws_length c rest); simpl in En; lia.
    + eapply Hret; exact B.
    + eapply Hund; exact B.
Qed.

Ltac break_body H :=
  repeat match type of H with
  | context [if ?b then _ else _] => destruct b eqn:?
  | context [match ?x with Some _ => _ | None => _ end] => destruct x eqn:?
  | context [match ?x with [] => _ | _ :: _ => _ end] => destruct x eqn:?
  end.

(** [look] only writes [pc] and [nc]. *)
Lemma look_fields (prev next : option ascii) (st : locals) :
  nline (look prev next st) = nline st
  /\ nchar (look prev next st) = nchar st
  /\ bracket_level (look prev next st) = bracket_level st
  /\ inquote (look prev next st) = inquote st
  /\ incomment (look prev next st) = incomment st
  /\ parsed_key (look prev next st) = parsed_key st
  /\ buf (look prev next st) = buf st
  /\ CurrentKey (look prev next st) = CurrentKey st
  /\ CurrentKV (look prev next st) = CurrentKV st
  /\ below (look prev next st) = below st
  /\ this_good (look prev next st) = this_good st
  /\ reports (look prev next st) = reports st.
Proof. destruct prev, next; repeat split. Qed.

(** A turn that goes on to the next character reports nothing and keeps
    [bracket_level] in step with the stack. *)
Lemma body_goes_on (prev : option ascii) (c : ascii) (next : option ascii)
    (st st' : locals) :
  body prev c next st = Continue st' \/ body prev c next st = FallOut st' ->
  this_good st' = this_good st /\ reports st' = reports st
  /\ (bracket_level st' - Z.of_nat (length (below st')) =
      bracket_level st - Z.of_nat (length (below st)))%Z.
Proof.
  unfold body, save_token.
  destruct (look_fields prev next st)
    as (_ & _ & L3 & _ & _ & _ & _ & _ & _ & L4 & L1 & L2).
  generalize dependent (look prev next st); intros s L3 L4 L1 L2 H.
  destruct H as [H|H]; break_body H; try discriminate; inversion H; subst st';
    cbn; rewrite <- ?L1, <- ?L2, <- ?L3, <- ?L4; repeat split;
    cbn [length]; lia.
Qed.

(** The two ways the body returns. *)
Lemma body_returns (prev : option ascii) (c : ascii) (next : option ascii)
    (st st' : locals) :
  body prev c next st = Return st' <->
  (c = LF /\ inquote st = true
   /\ st' = ReportError (nline st) (nchar st) MISSING_QUOTE (look prev next st))
  \/ (c = LBRACE /\ inquote st = false /\ incomment st = false
      /\ parsed_key st = false /\ buf st = []
      /\ st' = ReportError (nline st) (nchar st) UNNAMED_SECTION
                 (look prev next st)).
Proof.
  unfold body.
  destruct (look_fields prev next st)
    as (L1 & L2 & _ & L4 & L5 & L6 & L7 & _).
  generalize dependent (look prev next st).
  intros s L1 L2 L4 L5 L6 L7; rewrite <- L1, <- L2, <- L4, <- L5, <- L6, <- L7.
  split.
  - intros H; break_body H; try discriminate; inversion H; subst st'.
    + left; repeat split; try assumption.
      now apply Ascii.eqb_eq.
    + right.
      match goal with
      | E : negb (inquote s) && Ascii.eqb c LBRACE = true |- _ =>
          apply andb_true_iff in E as [E1 E2];
          apply negb_true_iff in E1; apply Ascii.eqb_eq in E2
      end.
      repeat split; try assumption.
      destruct (buf s); [reflexivity | discriminate].
  - intros [(-> & Hq & ->) | (-> & Hq & Hc & Hk & Hb & ->)].
    + simpl; now rewrite Hq.
    + cbn; rewrite Hq, Hc, Hk, Hb; cbn.
      destruct (Ascii.eqb (pc s) SLASH || Ascii.eqb (nc s) SLASH); reflexivity.
Qed.

Lemma enter_sound (g : garbage) (this : KeyValues) : sound (enter g this).
Proof. repeat split. Qed.

Lemma scan_sound (prev : option ascii) (rest : list ascii) (st : locals) :
  sound st ->
  match scan prev rest st with
  | Finished st' => sound st'
  | Aborted st' =>
      this_good st' = false
      /\ exists l c e, reports st' = [mkReport l c e]
                       /\ (e = MISSING_QUOTE \/ e = UNNAMED_SECTION)
  | Crashed _ => True
  end.
Proof.
  apply scan_induction with
    (P := fun _ st r => sound st ->
            match r with
            | Finished st' => sound st'
            | Aborted st' =>
                this_good st' = false
                /\ exists l c e, reports st' = [mkReport l c e]
                                 /\ (e = MISSING_QUOTE \/ e = UNNAMED_SECTION)
            | Crashed _ => True
            end).
  - auto.
  - intros p c r s s' B (_ & Hr & _).
    destruct (look_fields p (hd_error r) s)
      as (_ & _ & _ & _ & _ & _ & _ & _ & _ & _ & _ & L).
    apply body_returns in B as [(_ & _ & ->) | (_ & _ & _ & _ & _ & ->)];
      (split; [reflexivity|]); simpl; rewrite L, Hr; eauto 6.
  - auto.
  - intros p c r s s' p' r' B IH (Hg & Hr & Hb).
    apply body_goes_on in B as (Bg & Br & Bb).
    apply IH; unfold sound; simpl; repeat split; try congruence; lia.
Qed.

Lemma document_report (l c : Z) (e : EError) (prev next : option ascii)
    (st : locals) :
  document (ReportError l c e (look prev next st))
  = set_good false (close_all (CurrentKV st) (below st)).
Proof. destruct prev, next; reflexivity. Qed.

(** C6.  The loop body returns [false] in exactly two situations: a
    newline met inside a quote, which reports [MISSING_QUOTE], and an
    opening brace met outside quotes (and outside a comment, whose
    characters are dropped before braces are looked at) when no key is
    pending and the buffer is empty, which reports [UNNAMED_SECTION].  In
    both the scan stops at that character whatever follows it: the error
    is reported at the current line and column, [good] is false, the
    document is the tree built so far and [ParseString] returns [false]. *)
Theorem abort_in_exactly_two_cases :
  (forall prev c next st st',
      body prev c next st = Return st' <->
      exists e,
        fatal_case c st e
        /\ st' = ReportError (nline st) (nchar st) e (look prev next st))
  /\ (forall c st e, fatal_case c st e ->
       forall prev rest, exists st',
         scan prev (c :: rest) st = Aborted st'
         /\ this_good st' = false
         /\ reports st' = mkReport (nline st) (nchar st) e :: reports st
         /\ document st' = set_good false (close_all (CurrentKV st) (below st)))
  /\ (forall g this string len st',
        scan None (text_of string len) (enter g this) = Aborted st' ->
        ParseString g this string len
          = Returned false (document st') (rev (reports st'))
        /\ good (document st') = false).
Proof.
  assert (A : forall prev c next st st',
      body prev c next st = Return st' <->
      exists e,
        fatal_case c st e
        /\ st' = ReportError (nline st) (nchar st) e (look prev next st)).
  { intros prev c next st st'; rewrite body_returns; unfold fatal_case; split.
    - intros [(? & ? & ?) | (? & ? & ? & ? & ? & ?)]; eauto 12.
    - intros (e & [(? & ? & ->) | (? & ? & ? & ? & ? & ->)] & ?); auto 12. }
  split; [exact A|]; split.
  - intros c st e F prev rest; eexists; split.
    + rewrite scan_cons.
      replace (body prev c (hd_error rest) st)
        with (Return (ReportError (nline st) (nchar st) e
                        (look prev (hd_error rest) st))); [reflexivity|].
      symmetry; apply A; eauto.
    + split; [reflexivity|]; split.
      * simpl; now destruct (look_fields prev (hd_error rest) st)
          as (_ & _ & _ & _ & _ & _ & _ & _ & _ & _ & _ & ->).
      * apply document_report.
  - intros g this string len st' H; unfold ParseString; rewrite H.
    split; [reflexivity|].
    pose proof (scan_sound None (text_of string len) (enter g this)
                  (enter_sound g this)) as S.
    rewrite H in S; destruct S as [S _].
    unfold document; now destruct (close_all (CurrentKV st') (below st')).
Qed.

(** C6: the three parts at concrete inputs: a newline inside the quoted
    value of [k] on the first line, and a brace with nothing before it. *)
Lemma abort_in_exactly_two_cases_witness :
  ParseString g0 KeyValues_new text_quote_break (-1)
    = Returned false (set_good false KeyValues_new)
        [mkReport 0 15 MISSING_QUOTE]
  /\ (forall rest, exists st',
        scan None (LBRACE :: rest) (enter g0 KeyValues_new) = Aborted st'
        /\ this_good st' = false
        /\ reports st' = [mkReport 0 0 UNNAMED_SECTION]
        /\ document st' = set_good false KeyValues_new).
Proof.
  destruct abort_in_exactly_two_cases as (_ & Hscan & Hparse).
  split.
  - eassert (H : scan None (text_of text_quote_break (-1))
                    (enter g0 KeyValues_new) = Aborted _)
      by (vm_compute; reflexivity).
    rewrite (proj1 (Hparse _ _ _ _ _ H)); reflexivity.
  - intros rest.
    apply (Hscan LBRACE (enter g0 KeyValues_new) UNNAMED_SECTION).
    right; repeat split.
Defined.

(** ** The scan only adds to the document *)

Lemma extends_refl (kv : KeyValues) : extends kv kv.
Proof.
  induction kv as [nm g q ks cs IH] using KeyValues_tree_ind.
  rewrite <- (app_nil_r ks) at 2; rewrite <- (app_nil_r cs) at 2.
  constructor; induction IH; constructor; auto.
Qed.

Lemma extends_trans (a : KeyValues) :
  forall b c, extends a b -> extends b c -> extends a c.
Proof.
  induction a as [nm g q ks cs IH] using KeyValues_tree_ind.
  intros b c Hab Hbc; inversion Hab as [? ? g1 ? ? ks1 ? cs1 cs2 F1]; subst.
  inversion Hbc as [? ? g2 ? ? ks2 ? ds1 ds2 F2]; subst.
  apply Forall2_app_inv_l in F2 as (d1 & d2 & F2a & F2b & ->).
  rewrite <- !app_assoc; constructor.
  clear - IH F1 F2a; revert d1 F2a.
  induction F1 as [|x y cs cs1 Hxy F1 IHF]; intros d1 F2a.
  - inversion F2a; constructor.
  - inversion F2a as [|? z ? d1' Hyz F2a']; subst.
    inversion IH as [|? ? Hx IH']; subst.
    constructor; [eapply Hx; eauto | apply IHF; auto].
Qed.

Lemma extends_set_good (g g' : bool) (a b : KeyValues) :
  extends a b -> extends (set_good g a) (set_good g' b).
Proof. intros H; inversion H; subst; now constructor. Qed.

Lemma extends_flag (a : KeyValues) (g : bool) (b : KeyValues) :
  extends a b -> extends a (set_good g b).
Proof. intros H; inversion H; subst; now constructor. Qed.

Lemma Forall2_extends_refl (cs : list KeyValues) : Forall2 extends cs cs.
Proof. induction cs; constructor; auto using extends_refl. Qed.

Lemma extends_push_key (e : Key) (kv : KeyValues) : extends kv (push_key e kv).
Proof.
  destruct kv as [nm g q ks cs]; unfold push_key, set_keys; simpl.
  rewrite <- (app_nil_r cs) at 2; constructor; apply Forall2_extends_refl.
Qed.

Lemma extends_push_child (c kv : KeyValues) : extends kv (push_child c kv).
Proof.
  destruct kv as [nm g q ks cs]; unfold push_child; simpl.
  rewrite <- (app_nil_r ks) at 2; constructor; apply Forall2_extends_refl.
Qed.

Lemma extends_last_child (c c' parent : KeyValues) :
  extends c c' -> extends (push_child c parent) (push_child c' parent).
Proof.
  intros H; destruct parent as [nm g q ks cs]; unfold push_child; simpl.
  rewrite <- (app_nil_r ks) at 2; rewrite <- (app_nil_r (cs ++ [c'])).
  constructor; apply Forall2_app; [apply Forall2_extends_refl | auto].
Qed.

Lemma extends_close_all (bl : list KeyValues) :
  forall c c', extends c c' -> extends (close_all c bl) (close_all c' bl).
Proof.
  induction bl as [|parent bl IH]; intros c c' H; simpl; [exact H|].
  now apply IH, extends_last_child.
Qed.

(** One turn of the loop leaves in the document what was in it. *)
Lemma body_extends (prev : option ascii) (c : ascii) (next : option ascii)
    (st st' : locals) :
  body prev c next st = Continue st' \/ body prev c next st = FallOut st'
  \/ body prev c next st = Return st' ->
  extends (document st) (document st').
Proof.
  intros H; unfold document; apply extends_set_good.
  revert H; unfold body, save_token.
  destruct (look_fields prev next st)
    as (_ & _ & _ & _ & _ & _ & _ & _ & L9 & L10 & _).
  generalize dependent (look prev next st); intros s L9 L10 H.
  rewrite <- L9, <- L10; clear L9 L10.
  destruct H as [H|[H|H]]; break_body H; try discriminate; inversion H;
    subst st'; cbn;
    try apply extends_refl;
    apply extends_close_all;
    first [apply extends_push_key | apply extends_push_child].
Qed.

Lemma scan_extends (prev : option ascii) (rest : list ascii) (st : locals) :
  match scan prev rest st with
  | Finished st' | Aborted st' => extends (document st) (document st')
  | Crashed _ => True
  end.
Proof.
  apply scan_induction with
    (P := fun _ st r =>
            match r with
            | Finished st' | Aborted st' => extends (document st) (document st')
            | Crashed _ => True
            end).
  - intros; apply extends_refl.
  - intros p c r s s' B; eapply body_extends; eauto.
  - auto.
  - intros p c r s s' p' r' B IH.
    assert (E : extends (document s) (document (next_char s'))).
    { change (document (next_char s')) with (document s').
      apply (body_extends p c (hd_error r)); tauto. }
    destruct (scan p' r' (next_char s')); auto;
      eapply extends_trans; eauto.
Qed.

Lemma finish_sound (st : locals) :
  sound st ->
  finish st
  = Returned (negb (inquote st) && negb (0 <? length (below st)))
      (set_good (negb (inquote st) && negb (0 <? length (below st)))
         (close_all (CurrentKV st) (below st)))
      ((if inquote st then [mkReport (-1) 0 MISSING_QUOTE] else [])
       ++ (if 0 <? length (below st)
           then [mkReport (-1) 0 UNTERMINATED_SECTION] else [])).
Proof.
  intros (Hg & Hr & Hb).
  assert (E : (0 <? bracket_level st)%Z = (0 <? length (below st))).
  { rewrite Hb; destruct (below st); reflexivity. }
  unfold finish, document; destruct st as [l c b q cm pk bf ck kv bl p n gd rp].
  simpl in *; subst gd rp; rewrite <- E; clear E Hb.
  destruct q; simpl; destruct (0 <? b)%Z; simpl;
    destruct (close_all kv bl); reflexivity.
Qed.

(** C7.  When the loop comes to the end of the text in state [st], an
    open quote is reported as [MISSING_QUOTE] and sections still open
    (the stack above the root is not empty) as [UNTERMINATED_SECTION],
    both at line -1, column 0.  The value returned and the flag [good]
    are true exactly when neither is reported, and the document returned
    is the tree the scan built, open sections included: whatever the
    document held in a state [st0] the scan went through, the document
    returned holds. *)
Theorem end_of_input_reports (g : garbage) (this : KeyValues)
    (string : list ascii) (len : Z) (st : locals) :
  scan None (text_of string len) (enter g this) = Finished st ->
  ParseString g this string len
  = Returned (negb (inquote st) && negb (0 <? length (below st)))
      (set_good (negb (inquote st) && negb (0 <? length (below st)))
         (close_all (CurrentKV st) (below st)))
      ((if inquote st then [mkReport (-1) 0 MISSING_QUOTE] else [])
       ++ (if 0 <? length (below st)
           then [mkReport (-1) 0 UNTERMINATED_SECTION] else []))
  /\ forall prev rest st0,
       scan prev rest st0 = Finished st ->
       extends (document st0)
         (set_good (negb (inquote st) && negb (0 <? length (below st)))
            (close_all (CurrentKV st) (below st))).
Proof.
  intros H; split.
  - unfold ParseString; rewrite H.
    apply finish_sound.
    pose proof (scan_sound None (text_of string len) (enter g this)
                  (enter_sound g this)) as S.
    now rewrite H in S.
  - intros prev rest st0 H0.
    pose proof (scan_extends prev rest st0) as E; rewrite H0 in E.
    apply (extends_flag _ (negb (inquote st) && negb (0 <? length (below st))))
      in E.
    exact E.
Qed.

(** C7: the text ends inside a quote, inside section [A]: both errors are
    reported, and the document holds the entry and the section that were
    read. *)
Lemma end_of_input_reports_witness :
  ParseString g0 KeyValues_new text_unfinished (-1)
  = Returned false
      (mkKeyValues None false false [entry "k" "v"]
         [mkKeyValues (Some (str "A")) true false [] []])
      [mkReport (-1) 0 MISSING_QUOTE; mkReport (-1) 0 UNTERMINATED_SECTION].
Proof.
  eassert (H : scan None (text_of text_unfinished (-1))
                 (enter g0 KeyValues_new) = Finished _)
    by (vm_compute; reflexivity).
  rewrite (proj1 (end_of_input_reports _ _ _ _ _ H)); reflexivity.
Defined.

(** C9 (the code departs from the claim).  A closing brace met when only
    the root is on the stack makes the scanner read [stack[-1]]. *)
Theorem closing_brace_underruns_stack :
  (forall g, ParseString g KeyValues_new (str "A { } }") (-1)
             = NoBehaviour StackUnderrun)
  /\ (forall g, ParseString g KeyValues_new (str "}") (-1)
                = NoBehaviour StackUnderrun)
  /\ (forall prev next st,
        inquote st = false -> incomment st = false -> below st = [] ->
        body prev RBRACE next st = Undefined StackUnderrun).
Proof.
  split; [|split].
  - intros [p n q]; vm_compute; reflexivity.
  - intros [p n q]; vm_compute; reflexivity.
  - intros prev next st Hq Hc Hb; unfold body.
    destruct (look_fields prev next st)
      as (_ & _ & _ & L4 & L5 & _ & _ & _ & _ & L10 & _).
    rewrite L4, L5, L10, Hq, Hc, Hb; reflexivity.
Qed.

(** ** The entry points that allocate the document *)

Lemma ParseString_flag (g : garbage) (this : KeyValues) (string : list ascii)
    (len : Z) (ret : bool) (this' : KeyValues) (errs : list report) :
  ParseString g this string len = Returned ret this' errs ->
  good this' = ret /\ (ret = true <-> errs = []).
Proof.
  unfold ParseString.
  pose proof (scan_sound None (text_of string len) (enter g this)
                (enter_sound g this)) as S.
  destruct (scan None (text_of string len) (enter g this)) as [st|st|u].
  - rewrite (finish_sound st S); intros H; inversion H; subst; clear H.
    split.
    + now destruct (close_all (CurrentKV st) (below st)).
    + destruct (inquote st), (0 <? length (below st)); simpl;
        split; congruence.
  - destruct S as (Hg & l & c & e & Hr & _).
    intros H; inversion H; subst; clear H; split.
    + unfold document; now destruct (close_all (CurrentKV st) (below st)).
    + rewrite Hr; simpl; split; congruence.
  - discriminate.
Qed.

Lemma ParseFile_flag (g : garbage) (this : KeyValues)
    (contents : option (list ascii)) (ret : bool) (this' : KeyValues)
    (errs : list report) :
  ParseFile g this contents = Returned ret this' errs -> good this' = ret.
Proof.
  unfold ParseFile; destruct contents as [buffer|].
  - destruct (ParseString g this buffer (Z.of_nat (length buffer)));
      intros H; inversion H; reflexivity.
  - intros H; inversion H; now destruct this.
Qed.

(** What [ParseString] leaves in the object when it returns [false]: the
    tree as the scanner had built it when it stopped. *)
Lemma ParseString_partial (g : garbage) (this : KeyValues)
    (string : list ascii) (len : Z) (this' : KeyValues) (errs : list report) :
  ParseString g this string len = Returned false this' errs ->
  extends this this'
  /\ exists st,
       (scan None (text_of string len) (enter g this) = Aborted st
        \/ scan None (text_of string len) (enter g this) = Finished st)
       /\ this' = set_good false (close_all (CurrentKV st) (below st)).
Proof.
  unfold ParseString.
  pose proof (scan_extends None (text_of string len) (enter g this)) as X.
  pose proof (scan_sound None (text_of string len) (enter g this)
                (enter_sound g this)) as S.
  assert (E0 : extends this (document (enter g this)))
    by (unfold document; simpl; apply extends_flag, extends_refl).
  destruct (scan None (text_of string len) (enter g this)) as [st|st|u].
  - rewrite (finish_sound st S); intros H; inversion H as [[Hr Ht He]].
    rewrite Hr; split; [|exists st; split; [now right | reflexivity]].
    eapply extends_trans; [exact E0|].
    eapply extends_trans; [exact X|].
    unfold document; apply extends_set_good, extends_refl.
  - destruct S as (Hg & _).
    intros H; inversion H; subst; clear H; split.
    + eapply extends_trans; eauto.
    + exists st; split; [now left|].
      unfold document; now rewrite Hg.
  - discriminate.
Qed.

Lemma ParseFile_opened (g : garbage) (this : KeyValues) (buffer : list ascii) :
  ParseFile g this (Some buffer)
  = ParseString g this buffer (Z.of_nat (length buffer)).
Proof.
  unfold ParseFile.
  destruct (ParseString g this buffer (Z.of_nat (length buffer)))
    as [ret this' errs|u] eqn:P; [|reflexivity].
  now destruct (ParseString_flag _ _ _ _ _ _ _ P) as [-> _].
Qed.

(** C10.  [FromString] and [FromFile] return the null pointer exactly
    when the parse returns [false]: a document they do return has
    [good = true] and was parsed without a report, so the caller never
    sees a partial tree or a flag that is false.  [ParseString] on an
    object the caller holds keeps the partial tree when it returns
    [false]: the object is the tree as the scanner had built it when it
    stopped, with [good = false]; it holds all that the object held before
    the call, and an error has been reported.  So does [ParseFile], which
    on a file that can be opened does to the object what [ParseString]
    does with the contents of the file and returns the same value, and on
    a file that cannot be opened clears the flag and leaves the rest. *)
Theorem From_returns_null_on_failure (g : garbage) :
  (forall string kv errs,
      ParseString g KeyValues_new string (-1) = Returned false kv errs ->
      FromString g string = Pointer None)
  /\ (forall contents kv errs,
        ParseFile g KeyValues_new contents = Returned false kv errs ->
        FromFile g contents = Pointer None)
  /\ (forall string kv,
        FromString g string = Pointer (Some kv) ->
        good kv = true
        /\ ParseString g KeyValues_new string (-1) = Returned true kv [])
  /\ (forall contents kv,
        FromFile g contents = Pointer (Some kv) ->
        good kv = true
        /\ ParseFile g KeyValues_new contents = Returned true kv [])
  /\ (forall string,
        FromString g string = Pointer None ->
        exists kv errs,
          ParseString g KeyValues_new string (-1) = Returned false kv errs)
  /\ (forall contents,
        FromFile g contents = Pointer None ->
        exists kv errs,
          ParseFile g KeyValues_new contents = Returned false kv errs)
  /\ (forall this string len this' errs,
        ParseString g this string len = Returned false this' errs ->
        good this' = false /\ errs <> [] /\ extends this this'
        /\ exists st,
             (scan None (text_of string len) (enter g this) = Aborted st
              \/ scan None (text_of string len) (enter g this) = Finished st)
             /\ this' = set_good false (close_all (CurrentKV st) (below st)))
  /\ (forall this buffer,
        ParseFile g this (Some buffer)
        = ParseString g this buffer (Z.of_nat (length buffer)))
  /\ (forall this,
        ParseFile g this None = Returned false (set_good false this) []).
Proof.
  split; [|split; [|split; [|split; [|split; [|split; [|split; [|split]]]]]]].
  - intros string kv errs H; unfold FromString; now rewrite H.
  - intros contents kv errs H; unfold FromFile; now rewrite H.
  - intros string kv; unfold FromString.
    destruct (ParseString g KeyValues_new string (-1))
      as [[|] kv' errs|u] eqn:E; try discriminate.
    intros H; inversion H; subst.
    destruct (ParseString_flag _ _ _ _ _ _ _ E) as [Hg [He _]].
    now rewrite (He eq_refl).
  - intros contents kv; unfold FromFile.
    destruct (ParseFile g KeyValues_new contents) as [[|] kv' errs|u] eqn:E;
      try discriminate.
    intros H; inversion H; subst.
    split; [now apply ParseFile_flag in E|].
    destruct contents as [buffer|]; [|discriminate].
    rewrite ParseFile_opened in E.
    destruct (ParseString_flag _ _ _ _ _ _ _ E) as [_ [He _]].
    now rewrite (He eq_refl).
  - intros string; unfold FromString.
    destruct (ParseString g KeyValues_new string (-1))
      as [[|] kv' errs|u]; try discriminate; eauto.
  - intros contents; unfold FromFile.
    destruct (ParseFile g KeyValues_new contents) as [[|] kv' errs|u];
      try discriminate; eauto.
  - intros this string len this' errs H.
    destruct (ParseString_flag _ _ _ _ _ _ _ H) as [Hg He].
    destruct (ParseString_partial _ _ _ _ _ _ H) as [Hx Hst].
    repeat split; auto.
    intros ->; destruct He as [_ He]; now specialize (He eq_refl).
  - intros this buffer; apply ParseFile_opened.
  - reflexivity.
Qed.

(** C10: after the entry [k v] the brace has no name.  [ParseString]
    returns [false] and leaves the entry in the document; [FromString] and
    [FromFile] on the same text return the null pointer; [ParseFile] on an
    object that has an entry leaves that entry and the one it read. *)
Lemma From_returns_null_on_failure_witness :
  let kv := section_of [entry "old" "0"] in
  let partial :=
    mkKeyValues None false false [entry "old" "0"; entry "k" "v"] [] in
  ParseString g0 KeyValues_new text_unnamed (-1)
  = Returned false (mkKeyValues None false false [entry "k" "v"] [])
      [mkReport 1 1 UNNAMED_SECTION]
  /\ FromString g0 text_unnamed = Pointer None
  /\ FromFile g0 (Some text_unnamed) = Pointer None
  /\ FromFile g0 None = Pointer None
  /\ ParseFile g0 kv (Some text_unnamed)
     = Returned false partial [mkReport 1 1 UNNAMED_SECTION]
  /\ good partial = false
  /\ extends kv partial.
Proof.
  intros kv partial.
  destruct (From_returns_null_on_failure g0)
    as (Hs & Hf & _ & _ & _ & _ & Hkeep & Hfile & _).
  assert (E : ParseString g0 KeyValues_new text_unnamed (-1)
              = Returned false (mkKeyValues None false false [entry "k" "v"] [])
                  [mkReport 1 1 UNNAMED_SECTION])
    by (vm_compute; reflexivity).
  assert (P : ParseString g0 kv text_unnamed
                (Z.of_nat (length text_unnamed))
              = Returned false partial [mkReport 1 1 UNNAMED_SECTION])
    by (vm_compute; reflexivity).
  split; [exact E|]; split; [exact (Hs _ _ _ E)|]; split; [|split].
  - eapply Hf; vm_compute; reflexivity.
  - eapply Hf; vm_compute; reflexivity.
  - split; [now rewrite Hfile|].
    destruct (Hkeep _ _ _ _ _ P) as (Hg & _ & Hx & _); now split.
Defined.

(** ** The flag [good] over a sequence of calls *)

(** C8, as the code has it.  No call other than a parse changes [good].
    During a parse the flag is never set back: a turn of the loop that
    goes on leaves it as it is and a turn that returns clears it.  But
    every [ParseString] starts from [good = true], so after the call the
    flag says whether this parse reported an error, whatever it was
    before.  ([ParseFile] clears the flag when the file cannot be opened,
    and otherwise leaves it as its [ParseString] set it.) *)
Theorem good_changes_only_in_parse (g : garbage) :
  (forall op kv kv',
      is_parse op = false -> perform g op kv = Some kv' -> good kv' = good kv)
  /\ (forall prev c next st st',
        body prev c next st = Continue st'
        \/ body prev c next st = FallOut st'
        \/ body prev c next st = Return st' ->
        this_good st = false -> this_good st' = false)
  /\ (forall this string len ret this' errs,
        ParseString g this string len = Returned ret this' errs ->
        good this' = ret /\ (ret = true <-> errs = []))
  /\ (forall this contents ret this' errs,
        ParseFile g this contents = Returned ret this' errs ->
        good this' = ret).
Proof.
  split; [|split; [|split]].
  - intros op kv kv' Hop H; destruct op; try discriminate; simpl in H;
      try match type of H with
      | context [DumpToStream ?a ?b] =>
          destruct (DumpToStream a b); [|discriminate]
      end;
      inversion H; subst; clear H; try reflexivity.
    + now rewrite GetBool_leaves_section.
    + now rewrite GetInt_leaves_section.
  - intros prev c next st st' [B|[B|B]] Hg.
    + apply (fun H => body_goes_on prev c next st st' (or_introl H)) in B.
      destruct B as (-> & _); exact Hg.
    + apply (fun H => body_goes_on prev c next st st' (or_intror H)) in B.
      destruct B as (-> & _); exact Hg.
    + apply body_returns in B as [(_ & _ & ->) | (_ & _ & _ & _ & _ & ->)];
        reflexivity.
  - intros this string len ret this' errs; apply ParseString_flag.
  - intros this contents ret this' errs; apply ParseFile_flag.
Qed.

(** C8: an instance of each part: a setter on a document whose flag is
    false, a turn of the loop from a state whose flag is false, and a parse
    that fails. *)
Lemma good_changes_only_in_parse_witness :
  good (SetInt (set_good false (section_of [entry "k" "1"])) (str "k") 5)
    = false
  /\ (forall st', body None LBRACE None
                    (ReportError 0 0 MISSING_QUOTE (enter g0 KeyValues_new))
                  = Return st' -> this_good st' = false)
  /\ good (mkKeyValues None false false [entry "k" "v"] []) = false.
Proof.
  destruct (good_changes_only_in_parse g0) as (Hop & Hbody & Hparse & _).
  split; [|split].
  - apply (Hop (OpSetInt (str "k") 5)
             (set_good false (section_of [entry "k" "1"])));
      reflexivity.
  - intros st' B.
    apply (Hbody None LBRACE None
             (ReportError 0 0 MISSING_QUOTE (enter g0 KeyValues_new)));
      [right; right; exact B | reflexivity].
  - apply (Hparse KeyValues_new text_unnamed (-1)%Z false _
             [mkReport 1 1 UNNAMED_SECTION]).
    vm_compute; reflexivity.
Defined.

(** C8 as stated fails: a parse that fails leaves [good = false], and the
    next parse on the same object sets it back to [true]. *)
Lemma second_parse_resets_good :
  let kv1 := mkKeyValues None false false [] [] in
  let kv2 := mkKeyValues None true false [entry "k" "v"] [] in
  perform g0 (OpParseString (str "{") (-1)) KeyValues_new = Some kv1
  /\ good kv1 = false
  /\ perform g0 (OpParseString (str "k v ") (-1)) kv1 = Some kv2
  /\ good kv2 = true
  /\ perform_all g0 [OpParseString (str "{") (-1);
                     OpParseString (str "k v ") (-1)] KeyValues_new
     = Some kv2.
Proof. repeat split; vm_compute; reflexivity. Qed.

(** ** Writing a document and reading it back *)

Lemma core_next_char (st : locals) : core (next_char st) = core st.
Proof. reflexivity. Qed.

Lemma plain_char_facts (c : ascii) :
  plain_char c = true ->
  Ascii.eqb c LF = false
  /\ Ascii.eqb c DQUOTE = false /\ Ascii.eqb c LBRACE = false
  /\ Ascii.eqb c RBRACE = false /\ _internal_isspace c = false
  /\ Ascii.eqb c NUL = false.
Proof.
  unfold plain_char; rewrite !andb_true_iff, !negb_true_iff.
  intros ((((Hs & Hq) & Hl) & Hr) & Hn).
  repeat split; try assumption.
  unfold _internal_isspace in Hs; rewrite !orb_false_iff in Hs; tauto.
Qed.

Lemma quoted_char_facts (c : ascii) :
  quoted_char c = true ->
  Ascii.eqb c DQUOTE = false /\ Ascii.eqb c LF = false
  /\ Ascii.eqb c NUL = false.
Proof.
  unfold quoted_char; rewrite !andb_true_iff, !negb_true_iff; tauto.
Qed.

Lemma plain_char_quoted (c : ascii) :
  plain_char c = true -> quoted_char c = true.
Proof.
  intros H; destruct (plain_char_facts c H) as (F1 & F3 & _ & _ & _ & F7).
  unfold quoted_char; now rewrite F1, F3, F7.
Qed.

Lemma room (bf : list ascii) :
  length bf < BUF_SIZE -> (BUF_SIZE <=? length bf) = false.
Proof. intros H; now apply Nat.leb_gt. Qed.

Ltac open_state st Hc :=
  destruct st; unfold core in Hc; simpl in Hc; inversion Hc; subst; clear Hc.

(** A character of a token outside quotes goes to the buffer. *)
Lemma body_plain (prev : option ascii) (c : ascii) (next : option ascii)
    (st : locals) (pk : bool) (bf : list ascii) (ck : Key) (kv : KeyValues)
    (bl : list KeyValues) :
  core st = mkCore false false pk bf ck kv bl ->
  plain_char c = true ->
  Ascii.eqb c SLASH && (may_be_slash prev || may_be_slash next) = false ->
  length bf < BUF_SIZE ->
  exists st', body prev c next st = Continue st'
              /\ core st' = mkCore false false pk (bf ++ [c]) ck kv bl.
Proof.
  intros Hc Hp Hs Hl.
  destruct (plain_char_facts c Hp) as (F1 & F3 & F4 & F5 & F6 & F7).
  open_state st Hc.
  unfold body; destruct (Ascii.eqb c SLASH) eqn:Ec; destruct prev, next;
    cbn -[Nat.leb BUF_SIZE] in Hs |- *; rewrite ?orb_true_r in Hs;
    try discriminate;
    rewrite F1, ?Hs, F3, F4, F5, F6; cbn -[Nat.leb BUF_SIZE];
    rewrite (room _ Hl); eexists; split; reflexivity.
Qed.

(** So does any character between quotes, but the quote and the newline. *)
Lemma body_in_quote (prev : option ascii) (c : ascii) (next : option ascii)
    (st : locals) (pk : bool) (bf : list ascii) (ck : Key) (kv : KeyValues)
    (bl : list KeyValues) :
  core st = mkCore true false pk bf ck kv bl ->
  quoted_char c = true -> length bf < BUF_SIZE ->
  exists st', body prev c next st = Continue st'
              /\ core st' = mkCore true false pk (bf ++ [c]) ck kv bl.
Proof.
  intros Hc Hp Hl.
  destruct (quoted_char_facts c Hp) as (F1 & F2 & F3).
  open_state st Hc.
  unfold body; destruct prev, next; cbn -[Nat.leb BUF_SIZE];
    rewrite F1, F2, ?andb_false_r; cbn -[Nat.leb BUF_SIZE];
    rewrite ?orb_true_r, (room _ Hl); eexists; split; reflexivity.
Qed.

Lemma body_open_quote (prev next : option ascii) (st : locals) (pk : bool)
    (bf : list ascii) (ck : Key) (kv : KeyValues) (bl : list KeyValues) :
  core st = mkCore false false pk bf ck kv bl ->
  exists st', body prev DQUOTE next st = Continue st'
              /\ core st' = mkCore true false pk bf ck kv bl.
Proof.
  intros Hc; open_state st Hc.
  unfold body; destruct prev, next; cbn; eexists; split; reflexivity.
Qed.

Lemma body_close_quote (prev next : option ascii) (st : locals) (pk : bool)
    (bf : list ascii) (ck : Key) (kv : KeyValues) (bl : list KeyValues) :
  core st = mkCore true false pk bf ck kv bl ->
  length bf < BUF_SIZE ->
  exists st', body prev DQUOTE next st = Continue st'
    /\ core st' =
       if pk
       then mkCore false false false [] (mkKey None None (cached ck) true)
              (push_key
                 (mkKey (key ck) (Some (kvstrdup bf)) (cached ck) true) kv)
              bl
       else mkCore false false true []
              (mkKey (Some (kvstrdup bf)) (value ck) (cached ck) true) kv bl.
Proof.
  intros Hc Hl; open_state st Hc.
  unfold body; destruct prev, next; cbn -[Nat.leb BUF_SIZE];
    rewrite (room _ Hl); destruct pk; eexists; split; reflexivity.
Qed.

(** A newline outside quotes; the token in the buffer, if there is one,
    is stored and [CurrentKey.quoted] keeps its value. *)
Lemma body_newline (prev next : option ascii) (st : locals) (pk : bool)
    (bf : list ascii) (ck : Key) (kv : KeyValues) (bl : list KeyValues) :
  core st = mkCore false false pk bf ck kv bl ->
  length bf < BUF_SIZE ->
  exists st', body prev LF next st = Continue st'
    /\ core st' =
       match bf with
       | [] => mkCore false false pk [] ck kv bl
       | _ :: _ =>
           if pk
           then mkCore false false false []
                  (mkKey None None (cached ck) (quoted ck))
                  (push_key (mkKey (key ck) (Some (kvstrdup bf)) (cached ck)
                               (quoted ck)) kv) bl
           else mkCore false false true []
                  (mkKey (Some (kvstrdup bf)) (value ck) (cached ck)
                     (quoted ck))
                  kv bl
       end.
Proof.
  intros Hc Hl; open_state st Hc.
  unfold body; destruct prev, next; cbn -[Nat.leb BUF_SIZE];
    rewrite (room _ Hl), ?andb_false_r; destruct bf; cbn; destruct pk;
    eexists; split; reflexivity.
Qed.

(** A space or a tab outside quotes: the token in the buffer, if there is
    one, is stored as one that had no quotes. *)
Lemma body_blank (prev : option ascii) (c : ascii) (next : option ascii)
    (st : locals) (pk : bool) (bf : list ascii) (ck : Key) (kv : KeyValues)
    (bl : list KeyValues) :
  core st = mkCore false false pk bf ck kv bl ->
  c = SPACE \/ c = TAB -> length bf < BUF_SIZE ->
  exists st', body prev c next st = FallOut st'
    /\ core st' =
       match bf with
       | [] => mkCore false false pk [] ck kv bl
       | _ :: _ =>
           if pk
           then mkCore false false false [] (mkKey None None (cached ck) false)
                  (push_key (mkKey (key ck) (Some (kvstrdup bf)) (cached ck)
                               false) kv) bl
           else mkCore false false true []
                  (mkKey (Some (kvstrdup bf)) (value ck) (cached ck) false)
                  kv bl
       end.
Proof.
  intros Hc Hs Hl; open_state st Hc.
  unfold body; destruct Hs; subst c; destruct prev, next;
    cbn -[Nat.leb BUF_SIZE]; rewrite ?(room _ Hl); destruct bf;
    cbn -[Nat.leb BUF_SIZE]; rewrite ?(room _ Hl); destruct pk;
    eexists; split; reflexivity.
Qed.

(** An opening brace after a key: the key names the new section. *)
Lemma body_open_brace (prev next : option ascii) (st : locals)
    (k : cstring) (v : option cstring) (c : ELastCached) (q : bool)
    (kv : KeyValues) (bl : list KeyValues) :
  core st = mkCore false false true [] (mkKey (Some k) v c q) kv bl ->
  S (length bl) < STACK_SIZE ->
  exists st', body prev LBRACE next st = Continue st'
    /\ core st' =
       mkCore false false false [] (mkKey None v c q)
         (mkKeyValues (Some (kvstrdup k)) true q [] []) (kv :: bl).
Proof.
  intros Hc Hl; open_state st Hc.
  assert (E : (STACK_SIZE <=? S (length bl)) = false) by now apply Nat.leb_gt.
  unfold body; destruct prev, next; cbn -[Nat.leb STACK_SIZE]; rewrite E;
    destruct q; eexists; split; reflexivity.
Qed.

Lemma body_close_brace (prev next : option ascii) (st : locals) (ck : Key)
    (kv parent : KeyValues) (bl : list KeyValues) :
  core st = mkCore false false false [] ck kv (parent :: bl) ->
  exists st', body prev RBRACE next st = Continue st'
    /\ core st' = mkCore false false false [] ck (push_child kv parent) bl.
Proof.
  intros Hc; open_state st Hc.
  unfold body; destruct prev, next; cbn; eexists; split; reflexivity.
Qed.

Lemma scan_continue (prev : option ascii) (c : ascii) (rest : list ascii)
    (st st' : locals) :
  body prev c (hd_error rest) st = Continue st' ->
  scan prev (c :: rest) st = scan (Some c) rest (next_char st').
Proof. intros B; now rewrite scan_cons, B. Qed.

Lemma scan_fallout (prev : option ascii) (c x : ascii) (rest : list ascii)
    (st st' : locals) :
  body prev c (hd_error (x :: rest)) st = FallOut st' ->
  _internal_isspace x = false ->
  scan prev (c :: x :: rest) st = scan (Some c) (x :: rest) (next_char st').
Proof. intros B Hx; rewrite scan_cons, B; simpl; now rewrite Hx. Qed.



Lemma slashes_apart_any (p : ascii) (t : cstring) :
  slashes_apart SLASH t = true -> slashes_apart p t = true.
Proof.
  destruct t as [|c t]; simpl; [reflexivity|].
  rewrite !andb_true_iff, !negb_true_iff; intros [H1 H2]; split; [|exact H2].
  destruct (Ascii.eqb c SLASH); [discriminate | reflexivity].
Qed.

(** A run of token characters outside quotes, [x] being the character
    after it. *)
Lemma scan_plain (t : list ascii) (x : ascii) (rest : list ascii) :
  forall (prev : option ascii) (st : locals) (pk : bool) (bf : list ascii)
         (ck : Key) (kv : KeyValues) (bl : list KeyValues),
  core st = mkCore false false pk bf ck kv bl ->
  forallb plain_char t = true ->
  slashes_apart (char_before prev) t = true -> Ascii.eqb x SLASH = false ->
  length bf + length t < BUF_SIZE ->
  exists prev' st',
    scan prev (t ++ x :: rest) st = scan prev' (x :: rest) st'
    /\ core st' = mkCore false false pk (bf ++ t) ck kv bl.
Proof.
  induction t as [|c t IH]; intros prev st pk bf ck kv bl Hc Hp Hs Hx Hl.
  - exists prev, st; split; [reflexivity | now rewrite app_nil_r].
  - simpl in Hp, Hs, Hl; apply andb_true_iff in Hp as [Hp Ht].
    apply andb_true_iff in Hs as [Hs1 Hs2]; apply negb_true_iff in Hs1.
    assert (S : Ascii.eqb c SLASH
                && (may_be_slash prev
                    || may_be_slash (hd_error (t ++ x :: rest))) = false).
    { destruct (Ascii.eqb c SLASH) eqn:Ec; [simpl in *|reflexivity].
      apply orb_false_iff; split.
      - destruct prev; [exact Hs1 | discriminate].
      - destruct t as [|c2 t]; simpl; [exact Hx|].
        simpl in Hs2; apply andb_true_iff in Hs2 as [Hs2 _].
        rewrite Ec, andb_true_r in Hs2; now apply negb_true_iff in Hs2. }
    destruct (body_plain prev c (hd_error (t ++ x :: rest)) st pk bf ck kv bl
                Hc Hp S) as (st1 & B & C1); [lia|].
    destruct (IH (Some c) (next_char st1) pk (bf ++ [c]) ck kv bl)
      as (prev' & st' & E & C'); auto.
    { rewrite length_app; simpl; lia. }
    exists prev', st'; split.
    + change ((c :: t) ++ x :: rest) with (c :: (t ++ x :: rest)).
      rewrite (scan_continue _ _ _ _ _ B); exact E.
    + now rewrite <- app_assoc in C'.
Qed.

(** A run of characters between quotes. *)
Lemma scan_in_quote (t rest : list ascii) :
  forall (prev : option ascii) (st : locals) (pk : bool) (bf : list ascii)
         (ck : Key) (kv : KeyValues) (bl : list KeyValues),
  core st = mkCore true false pk bf ck kv bl ->
  forallb quoted_char t = true -> length bf + length t < BUF_SIZE ->
  exists prev' st',
    scan prev (t ++ rest) st = scan prev' rest st'
    /\ core st' = mkCore true false pk (bf ++ t) ck kv bl.
Proof.
  induction t as [|c t IH]; intros prev st pk bf ck kv bl Hc Hp Hl.
  - exists prev, st; split; [reflexivity | now rewrite app_nil_r].
  - simpl in Hp, Hl; apply andb_true_iff in Hp as [Hp Ht].
    destruct (body_in_quote prev c (hd_error (t ++ rest)) st pk bf ck kv bl
                Hc Hp) as (st1 & B & C1); [lia|].
    destruct (IH (Some c) (next_char st1) pk (bf ++ [c]) ck kv bl)
      as (prev' & st' & E & C'); auto.
    { rewrite length_app; simpl; lia. }
    exists prev', st'; split.
    + simpl; rewrite (scan_continue _ _ _ _ _ B); exact E.
    + now rewrite <- app_assoc in C'.
Qed.

(** A token without NUL is copied whole. *)
Lemma kvstrdup_quoted (t : cstring) :
  forallb quoted_char t = true -> kvstrdup t = t.
Proof.
  unfold kvstrdup; induction t as [|c t IH]; simpl; [reflexivity|].
  intros H; apply andb_true_iff in H as [Hc Ht].
  destruct (quoted_char_facts c Hc) as (_ & _ & ->); now rewrite IH.
Qed.

Lemma forallb_plain_quoted (t : cstring) :
  forallb plain_char t = true -> forallb quoted_char t = true.
Proof.
  rewrite !forallb_forall; intros H c Hc; apply plain_char_quoted; auto.
Qed.


Lemma quoted_token_facts (t : cstring) :
  quoted_token t = true ->
  length t < BUF_SIZE /\ forallb quoted_char t = true.
Proof.
  unfold quoted_token; rewrite andb_true_iff, Nat.ltb_lt; tauto.
Qed.

Lemma plain_token_facts (t : cstring) :
  plain_token t = true ->
  exists c t', t = c :: t' /\ plain_char c = true
               /\ length t < BUF_SIZE /\ forallb plain_char t = true
               /\ forall p, slashes_apart p t = true.
Proof.
  unfold plain_token; rewrite !andb_true_iff, !Nat.ltb_lt.
  intros [[[H0 Hl] Hp] Hs]; destruct t as [|c t']; [simpl in H0; lia|].
  exists c, t'; repeat split; auto.
  - simpl in Hp; apply andb_true_iff in Hp; tauto.
  - intros p; now apply slashes_apart_any.
Qed.

(** A token between quotes. *)
Lemma scan_quoted_token (t rest : list ascii) (prev : option ascii)
    (st : locals) (pk : bool) (ck : Key) (kv : KeyValues)
    (bl : list KeyValues) :
  core st = mkCore false false pk [] ck kv bl ->
  quoted_token t = true ->
  exists prev' st',
    scan prev (DQUOTE :: t ++ DQUOTE :: rest) st = scan prev' rest st'
    /\ core st' =
       if pk
       then mkCore false false false [] (mkKey None None (cached ck) true)
              (push_key (mkKey (key ck) (Some t) (cached ck) true) kv) bl
       else mkCore false false true []
              (mkKey (Some t) (value ck) (cached ck) true) kv bl.
Proof.
  intros Hc Ht; apply quoted_token_facts in Ht as [Hl Hq].
  destruct (body_open_quote prev (hd_error (t ++ DQUOTE :: rest)) st
              _ _ _ _ _ Hc) as (st1 & B1 & C1).
  rewrite (scan_continue _ _ _ _ _ B1).
  destruct (scan_in_quote t (DQUOTE :: rest) (Some DQUOTE) (next_char st1)
              pk [] ck kv bl C1 Hq Hl) as (p2 & st2 & E2 & C2).
  rewrite E2; simpl in C2.
  destruct (body_close_quote p2 (hd_error rest) st2 _ _ _ _ _ C2 Hl)
    as (st3 & B3 & C3).
  rewrite (scan_continue _ _ _ _ _ B3).
  rewrite (kvstrdup_quoted t Hq) in C3.
  do 2 eexists; split; [reflexivity | exact C3].
Qed.

(** A newline between tokens. *)
Lemma scan_newline (rest : list ascii) (prev : option ascii) (st : locals)
    (pk : bool) (ck : Key) (kv : KeyValues) (bl : list KeyValues) :
  core st = mkCore false false pk [] ck kv bl ->
  exists prev' st',
    scan prev (LF :: rest) st = scan prev' rest st'
    /\ core st' = mkCore false false pk [] ck kv bl.
Proof.
  intros Hc.
  destruct (body_newline prev (hd_error rest) st _ _ _ _ _ Hc)
    as (st1 & B & C); [simpl; unfold BUF_SIZE; lia|].
  rewrite (scan_continue _ _ _ _ _ B).
  do 2 eexists; split; [reflexivity | exact C].
Qed.

Lemma scan_blank_idle (c x : ascii) (rest : list ascii) (prev : option ascii)
    (st : locals) (pk : bool) (ck : Key) (kv : KeyValues)
    (bl : list KeyValues) :
  core st = mkCore false false pk [] ck kv bl ->
  c = SPACE \/ c = TAB -> _internal_isspace x = false ->
  exists prev' st',
    scan prev (c :: x :: rest) st = scan prev' (x :: rest) st'
    /\ core st' = mkCore false false pk [] ck kv bl.
Proof.
  intros Hc Hs Hx.
  destruct (body_blank prev c (hd_error (x :: rest)) st _ _ _ _ _ Hc Hs)
    as (st1 & B & C); [simpl; unfold BUF_SIZE; lia|].
  rewrite (scan_fallout _ _ _ _ _ _ B Hx).
  do 2 eexists; split; [reflexivity | exact C].
Qed.

(** A key without quotes and the space after it. *)
Lemma scan_plain_key (t : cstring) (x : ascii) (rest : list ascii)
    (prev : option ascii) (st : locals) (ck : Key) (kv : KeyValues)
    (bl : list KeyValues) :
  core st = mkCore false false false [] ck kv bl ->
  plain_token t = true -> _internal_isspace x = false ->
  exists prev' st',
    scan prev (t ++ SPACE :: x :: rest) st = scan prev' (x :: rest) st'
    /\ core st' = mkCore false false true []
                    (mkKey (Some t) (value ck) (cached ck) false) kv bl.
Proof.
  intros Hc Ht Hx.
  destruct (plain_token_facts t Ht) as (c & t' & Et & Hc1 & Hl & Hp & Hs).
  destruct (scan_plain t SPACE (x :: rest) prev st false [] ck kv bl Hc Hp
              (Hs _) eq_refl Hl) as (p1 & st1 & E1 & C1).
  rewrite E1; simpl in C1.
  destruct (body_blank p1 SPACE (hd_error (x :: rest)) st1 _ _ _ _ _ C1
              (or_introl eq_refl) Hl) as (st2 & B2 & C2).
  rewrite (scan_fallout _ _ _ _ _ _ B2 Hx).
  rewrite (kvstrdup_quoted t (forallb_plain_quoted t Hp)) in C2.
  do 2 eexists; split; [reflexivity|].
  rewrite core_next_char, C2, Et; reflexivity.
Qed.

Lemma DQUOTE_not_space : _internal_isspace DQUOTE = false.
Proof. reflexivity. Qed.









Lemma LBRACE_not_space : _internal_isspace LBRACE = false.
Proof. reflexivity. Qed.

Lemma RBRACE_not_space : _internal_isspace RBRACE = false.
Proof. reflexivity. Qed.







(** The text written holds no NUL, so [strlen] sees all of it. *)
Lemma c_str_no_nul (s : list ascii) : no_nul s = true -> c_str s = s.
Proof.
  induction s as [|c s IH]; simpl; [reflexivity|].
  intros H; apply andb_true_iff in H as [Hc Hs].
  apply negb_true_iff in Hc; now rewrite Hc, IH.
Qed.

Lemma no_nul_app (a b : list ascii) : no_nul (a ++ b) = no_nul a && no_nul b.
Proof. apply forallb_app. Qed.


Lemma no_nul_quoted (t : cstring) : quoted_token t = true -> no_nul t = true.
Proof.
  intros H; apply quoted_token_facts in H as [_ H].
  unfold no_nul; rewrite forallb_forall in *; intros c Hc.
  destruct (quoted_char_facts c (H c Hc)) as (_ & _ & ->); reflexivity.
Qed.







Lemma text_of_strlen (s : list ascii) :
  no_nul s = true -> text_of s (-1) = s.
Proof. intros H; unfold text_of; simpl; now apply c_str_no_nul. Qed.


(** ** The text written and the bounds of [buf] *)

(** The statements of [DumpToStreamInternal], for any section. *)
Lemma Dump_eq (this : KeyValues) (indent : nat) :
  DumpToStreamInternal this indent
  = if MAX_INDENT_LEVEL <? indent then Written []
    else
      match name this with
      | Some nm =>
          if MAX_INDENT_LEVEL <? indent + 1 then IndentOverrun
          else
            match write_all
                    (fun section => DumpToStreamInternal section (indent + 1))
                    (child_sections this) with
            | Written sections =>
                Written
                  ((if kv_quoted this
                    then tabs indent ++ [DQUOTE] ++ nm ++ [DQUOTE; LF]
                         ++ tabs indent ++ [LBRACE; LF]
                    else tabs indent ++ nm ++ [LF] ++ tabs indent
                         ++ [LBRACE; LF])
                   ++ flat_map (dump_key (tabs (indent + 1))) (keys this)
                   ++ sections
                   ++ tabs indent ++ [RBRACE; LF])
            | IndentOverrun => IndentOverrun
            end
      | None =>
          match write_all
                  (fun section => DumpToStreamInternal section (indent + 1))
                  (child_sections this) with
          | Written sections =>
              Written (flat_map (dump_key (tabs indent)) (keys this)
                       ++ sections)
          | IndentOverrun => IndentOverrun
          end
      end.
Proof. destruct this; reflexivity. Qed.

Lemma dump_text_eq (this : KeyValues) (indent : nat) :
  dump_text this indent
  = if MAX_INDENT_LEVEL <? indent then []
    else
      match name this with
      | Some nm =>
          (if kv_quoted this
           then tabs indent ++ [DQUOTE] ++ nm ++ [DQUOTE; LF] ++ tabs indent
                ++ [LBRACE; LF]
           else tabs indent ++ nm ++ [LF] ++ tabs indent ++ [LBRACE; LF])
          ++ flat_map (dump_key (tabs (indent + 1))) (keys this)
          ++ flat_map (fun section => dump_text section (indent + 1))
               (child_sections this)
          ++ tabs indent ++ [RBRACE; LF]
      | None =>
          flat_map (dump_key (tabs indent)) (keys this)
          ++ flat_map (fun section => dump_text section (indent + 1))
               (child_sections this)
      end.
Proof. destruct this; reflexivity. Qed.


Lemma write_all_text {A : Type} (f : A -> written (list ascii))
    (t : A -> list ascii) (l : list A) :
  Forall (fun x => forall text, f x = Written text -> text = t x) l ->
  forall text, write_all f l = Written text -> text = flat_map t l.
Proof.
  induction 1 as [|x l Hx _ IH]; simpl; intros text H.
  - now inversion H.
  - destruct (f x) as [a|]; [|discriminate].
    destruct (write_all f l) as [b|]; [|discriminate].
    inversion H; subst; now rewrite (Hx a eq_refl), (IH b eq_refl).
Qed.

(** Whatever [DumpToStreamInternal] writes is the text of its [fprintf]
    statements. *)
Lemma Dump_written_text (c : KeyValues) :
  forall indent text,
    DumpToStreamInternal c indent = Written text -> text = dump_text c indent.
Proof.
  induction c as [nm gd q ks cs IH] using KeyValues_tree_ind.
  intros indent text; rewrite Dump_eq, dump_text_eq.
  cbn [name keys child_sections kv_quoted].
  destruct (MAX_INDENT_LEVEL <? indent); [intros H; now inversion H|].
  assert (W : forall sections,
            write_all (fun s => DumpToStreamInternal s (indent + 1)) cs
            = Written sections ->
            sections = flat_map (fun s => dump_text s (indent + 1)) cs).
  { apply write_all_text; revert IH; apply Forall_impl; auto. }
  destruct nm as [nm|].
  - destruct (MAX_INDENT_LEVEL <? indent + 1); [discriminate|].
    destruct (write_all _ cs) as [sections|]; [|discriminate].
    intros H; inversion H; now rewrite (W sections eq_refl).
  - destruct (write_all _ cs) as [sections|]; [|discriminate].
    intros H; inversion H; now rewrite (W sections eq_refl).
Qed.






(** Quoting that is not consistent.  The entry read from a quoted key
    and a bare value carries the flag of the value; it is written back
    without quotes around its key, and read as something else. *)
Lemma mixed_quotes_not_read_back :
  let T := mkKeyValues None true false
             [mkKey (Some (str "a b")) (Some (str "v")) NONE false] [] in
  ParseString g0 KeyValues_new text_mixed_quotes (-1) = Returned true T []
  /\ document_ok T = false
  /\ DumpToStreamInternal T 0 = Written (dump_text T 0)
  /\ ParseString g0 KeyValues_new (dump_text T 0) (-1)
     = Returned true
         (mkKeyValues None true false
            [mkKey (Some (str "a")) (Some (str "b")) NONE false] []) [].
Proof. repeat split; vm_compute; reflexivity. Qed.

(** * Further properties of the accessors *)

Lemma find_update_first (p : Key -> bool) (f : Key -> Key) (ks : list Key) :
  (forall e, p (f e) = p e) ->
  find p (update_first p f ks) = option_map f (find p ks).
Proof.
  intros Hf; induction ks as [|e ks IH]; simpl; [reflexivity|].
  destruct (p e) eqn:E; simpl.
  - now rewrite Hf, E.
  - now rewrite E, IH.
Qed.

Lemma find_update_first_other (p p' : Key -> bool) (f : Key -> Key)
    (ks : list Key) :
  (forall e, p' (f e) = p' e) -> (forall e, p e = true -> p' e = false) ->
  find p' (update_first p f ks) = find p' ks.
Proof.
  intros Hf Hx; induction ks as [|e ks IH]; simpl; [reflexivity|].
  destruct (p e) eqn:E; simpl.
  - now rewrite Hf, (Hx e E).
  - now rewrite IH.
Qed.



Lemma map_key_update_first (p : Key -> bool) (f : Key -> Key)
    (ks : list Key) :
  (forall e, key (f e) = key e) ->
  map key (update_first p f ks) = map key ks.
Proof.
  intros Hf; induction ks as [|e ks IH]; simpl; [reflexivity|].
  destruct (p e); simpl; [now rewrite Hf | now rewrite IH].
Qed.

Lemma key_is_other (k k' : cstring) (e : Key) :
  k' <> k -> key_is k e = true -> key_is k' e = false.
Proof.
  intros Hn H; apply key_is_iff in H.
  destruct (key_is k' e) eqn:E; [|reflexivity].
  apply key_is_iff in E; congruence.
Qed.

Lemma to_int_in_range (v : Z) :
  (INT_MIN <= v <= INT_MAX)%Z -> to_int v = v.
Proof.
  unfold INT_MIN, INT_MAX, to_int; intros H.
  rewrite Z.mod_small; lia.
Qed.

(** X1.  A typed setter followed by the getter of the same type: when the
    section has the key, the getter answers the value that was set, and
    otherwise its default; [errno] plays no part and is left as it was,
    and [strtod] is not called. *)
Theorem set_then_get_same_type
    (strtod : Z -> cstring -> spec_float * Z) (errno : Z) (this : KeyValues)
    (k : cstring) (b d : bool) (i di : Z) (f df : spec_float) :
  (INT_MIN <= i <= INT_MAX)%Z ->
  GetBool (SetBool this k b) k d
    = (SetBool this k b, if HasKey this k then b else d)
  /\ GetInt errno (SetInt this k i) k di
    = (SetInt this k i, if HasKey this k then i else di, errno)
  /\ GetDouble strtod errno (SetFloat this k f) k df
    = (if HasKey this k then f else df, errno).
Proof.
  intros Hi.
  unfold GetBool, GetInt, GetDouble, HasKey, SetBool, SetInt, SetFloat.
  simpl keys; rewrite !find_update_first by reflexivity.
  destruct (find (key_is k) (keys this)) as [e|]; simpl;
    rewrite ?(to_int_in_range i Hi); repeat split.
Qed.

(** X1: an instance with two entries of the same key, and one with the
    key missing. *)
Lemma set_then_get_same_type_witness :
  let kv := section_of [entry "a" "1"; entry "k" "2"; entry "k" "3"] in
  let nothing := fun (e : Z) (_ : cstring) => (S754_zero false, e) in
  (GetBool (SetBool kv (str "k") true) (str "k") false
     = (SetBool kv (str "k") true, true)
   /\ GetInt ERANGE (SetInt kv (str "k") (-7)) (str "k") 0
     = (SetInt kv (str "k") (-7), (-7)%Z, ERANGE)
   /\ GetDouble nothing ERANGE (SetFloat kv (str "k") (S754_infinity false))
        (str "k") (S754_zero false)
     = (S754_infinity false, ERANGE))
  /\ GetInt 0 (SetInt kv (str "zz") 5) (str "zz") (-1)
     = (SetInt kv (str "zz") 5, (-1)%Z, 0%Z).
Proof.
  intros kv nothing; split.
  - apply (set_then_get_same_type nothing ERANGE kv (str "k") true false
             (-7) 0 (S754_infinity false) (S754_zero false)).
    unfold INT_MIN, INT_MAX; lia.
  - refine (proj1 (proj2 (set_then_get_same_type nothing 0 kv (str "zz")
                            true false 5 (-1) (S754_zero false)
                            (S754_zero false) _))).
    unfold INT_MIN, INT_MAX; lia.
Defined.

(** X2.  [SetString] followed by [GetString] and [HasKey]: when the
    section has the key, [GetString] answers the string that was set
    (whatever was cached for the entry before) and otherwise its default;
    [SetString] never creates the key. *)
Theorem SetString_then_GetString (this : KeyValues) (k v : cstring)
    (d : option cstring) :
  GetString (SetString this k v) k d
    = (if HasKey this k then Some (kvstrdup v) else d)
  /\ HasKey (SetString this k v) k = HasKey this k.
Proof.
  unfold GetString, HasKey, SetString; simpl keys.
  rewrite !find_update_first by reflexivity.
  destruct (find (key_is k) (keys this)); split; reflexivity.
Qed.

(** X3.  [ClearKey] on a key the section has: the entry stays, its value
    reads back as the empty string and as the default boolean whatever
    was cached before, and, [errno] being 0, as the integer 0 rather than
    the default. *)
Theorem ClearKey_then_get (this : KeyValues) (k : cstring)
    (ds : option cstring) (db : bool) (di : Z) :
  HasKey this k = true ->
  HasKey (ClearKey this k) k = true
  /\ map key (keys (ClearKey this k)) = map key (keys this)
  /\ GetString (ClearKey this k) k ds = Some []
  /\ GetBool (ClearKey this k) k db = (ClearKey this k, db)
  /\ GetInt 0 (ClearKey this k) k di = (ClearKey this k, 0%Z, 0%Z).
Proof.
  unfold HasKey, GetString, GetBool, GetInt, ClearKey; simpl keys.
  rewrite !find_update_first by reflexivity.
  rewrite map_key_update_first by reflexivity.
  destruct (find (key_is k) (keys this)) as [e|]; [|discriminate].
  intros _; repeat split.
Qed.

(** X3: a key whose entry holds a cached boolean and an integer string. *)
Lemma ClearKey_then_get_witness :
  let kv := section_of [mkKey (Some (str "k")) (Some (str "42")) (BOOL true)
                          false] in
  HasKey (ClearKey kv (str "k")) (str "k") = true
  /\ map key (keys (ClearKey kv (str "k"))) = map key (keys kv)
  /\ GetString (ClearKey kv (str "k")) (str "k") None = Some []
  /\ GetBool (ClearKey kv (str "k")) (str "k") false
     = (ClearKey kv (str "k"), false)
  /\ GetInt 0 (ClearKey kv (str "k")) (str "k") (-1)
     = (ClearKey kv (str "k"), 0%Z, 0%Z).
Proof.
  intros kv.
  apply (ClearKey_then_get kv (str "k") None false (-1)); reflexivity.
Defined.

(** X4.  A setter or [ClearKey] for key [k] leaves the rest of the
    section alone: the keys of the entries, in their order, the name, the
    flag and the children are the same, and what [GetString], [GetBool]
    and [GetInt] answer for any other key [k'] is the same. *)
Theorem setters_leave_the_rest (c : change) (this : KeyValues)
    (k k' : cstring) :
  k' <> k ->
  map key (keys (apply_change c this k)) = map key (keys this)
  /\ name (apply_change c this k) = name this
  /\ good (apply_change c this k) = good this
  /\ child_sections (apply_change c this k) = child_sections this
  /\ forall ds db errno di,
       GetString (apply_change c this k) k' ds = GetString this k' ds
       /\ snd (GetBool (apply_change c this k) k' db)
          = snd (GetBool this k' db)
       /\ snd (fst (GetInt errno (apply_change c this k) k' di))
          = snd (fst (GetInt errno this k' di)).
Proof.
  intros Hk.
  assert (U : exists f, apply_change c this k
                        = set_keys (update_first (key_is k) f (keys this))
                            this
                        /\ forall e, key (f e) = key e).
  { destruct c; eexists; (split; [reflexivity|]); reflexivity. }
  destruct U as (f & -> & Hf).
  simpl; rewrite map_key_update_first by exact Hf.
  repeat split; unfold GetString, GetBool, GetInt; simpl keys;
    rewrite !(find_update_first_other (key_is k) (key_is k') f);
    try (intros e; unfold key_is; now rewrite Hf);
    try (intros e; now apply key_is_other).
  - reflexivity.
  - destruct (find (key_is k') (keys this)) as [e|]; [|reflexivity].
    now destruct (ReadBool e) as [[e1 b] ok1].
  - destruct (find (key_is k') (keys this)) as [e|]; [|reflexivity].
    now destruct (ReadInt errno e) as [[[e2 i] ok2] errno2].
Qed.

(** X4: [SetString] on [k] as seen through key [a]. *)
Lemma setters_leave_the_rest_witness :
  let kv := section_of [entry "a" "1"; entry "k" "true"] in
  map key (keys (SetString kv (str "k") (str "x"))) = map key (keys kv)
  /\ GetString (SetString kv (str "k") (str "x")) (str "a") None
     = Some (str "1").
Proof.
  intros kv.
  destruct (setters_leave_the_rest (ToString (str "x")) kv (str "k") (str "a"))
    as (Hk & _ & _ & _ & Ho); [discriminate|].
  split; [exact Hk|].
  exact (proj1 (Ho None false 0%Z 0%Z)).
Defined.


(** X6.  The cache of one entry.  Once [ReadInt] has succeeded on an
    entry, a second [ReadInt] on the entry it left answers the same value
    whatever [errno] is, and leaves [errno] and the entry alone; the same
    holds for [ReadBool]. *)
Theorem read_again_is_cached (e e' : Key) :
  (forall errno v errno',
     ReadInt errno e = (e', v, true, errno') ->
     forall errno2, ReadInt errno2 e' = (e', v, true, errno2))
  /\ (forall b,
        ReadBool e = (e', b, true) -> ReadBool e' = (e', b, true)).
Proof.
  split.
  - intros errno v errno'; unfold ReadInt.
    destruct (cached e) eqn:C; try destruct (value e) as [s|];
      try destruct (strtol errno s) as [v0 errno0];
      try destruct (errno0 =? 0)%Z; intros H; inversion H; subst;
      intros errno2; simpl; try rewrite C; reflexivity.
  - intros b; unfold ReadBool.
    destruct (cached e) eqn:C; try destruct (value e) as [s|];
      repeat match goal with
        | |- context [if ?c then _ else _] => destruct c
        end;
      intros H; inversion H; subst; simpl; try rewrite C; reflexivity.
Qed.

(** X6: reading 12, then reading again with [errno] set. *)
Lemma read_again_is_cached_witness :
  ReadInt ERANGE (mkKey (Some (str "k")) (Some (str "12")) (INT 12) false)
  = (mkKey (Some (str "k")) (Some (str "12")) (INT 12) false, 12%Z, true,
     ERANGE)
  /\ ReadBool (mkKey (Some (str "k")) (Some (str "TRUE")) (BOOL true) false)
     = (mkKey (Some (str "k")) (Some (str "TRUE")) (BOOL true) false, true,
        true).
Proof.
  split.
  - apply (proj1 (read_again_is_cached (entry "k" "12") _) 0%Z 12%Z 0%Z).
    reflexivity.
  - apply (proj2 (read_again_is_cached (entry "k" "TRUE") _) true).
    reflexivity.
Defined.

Lemma dump_keys_update_first (p : Key -> bool) (f : Key -> Key)
    (b : list ascii) (ks : list Key) :
  (forall e, dump_key b (f e) = dump_key b e) ->
  flat_map (dump_key b) (update_first p f ks) = flat_map (dump_key b) ks.
Proof.
  intros Hf; induction ks as [|e ks IH]; simpl; [reflexivity|].
  destruct (p e); simpl; [now rewrite Hf | now rewrite IH].
Qed.

(** X7.  What [SetBool], [SetInt] and [SetFloat] store is never written.
    After such a call [DumpToStreamInternal] does what it did before, at
    every indentation: where it wrote a text it writes the same text, and
    where it ran over its buffer (a section with a name at the last
    indentation) it still does. *)
Theorem typed_setters_not_dumped (this : KeyValues) (k : cstring)
    (indent : nat) (b : bool) (i : Z) (f : spec_float) :
  DumpToStreamInternal (SetBool this k b) indent
    = DumpToStreamInternal this indent
  /\ DumpToStreamInternal (SetInt this k i) indent
    = DumpToStreamInternal this indent
  /\ DumpToStreamInternal (SetFloat this k f) indent
    = DumpToStreamInternal this indent.
Proof.
  rewrite !Dump_eq; unfold SetBool, SetInt, SetFloat; simpl.
  destruct (MAX_INDENT_LEVEL <? indent); [repeat split|].
  destruct (name this) as [nm|];
    [destruct (MAX_INDENT_LEVEL <? indent + 1); [repeat split|]|];
    destruct (write_all _ (child_sections this)); try (repeat split; fail);
    rewrite !dump_keys_update_first by reflexivity; repeat split.
Qed.

(** X8.  A key the section does not have: every getter answers its
    default and leaves [errno] alone, and every setter and [ClearKey]
    leave the section as it is. *)
Theorem missing_key_defaults
    (strtod : Z -> cstring -> spec_float * Z)
    (to_float : spec_float -> spec_float) (errno : Z) (this : KeyValues)
    (k : cstring) :
  HasKey this k = false ->
  forall (db : bool) (di : Z) (ds : option cstring) (df : spec_float),
    GetBool this k db = (this, db)
    /\ GetInt errno this k di = (this, di, errno)
    /\ GetString this k ds = ds
    /\ GetFloat strtod to_float errno this k df = (df, errno)
    /\ GetDouble strtod errno this k df = (df, errno)
    /\ forall c, apply_change c this k = this.
Proof.
  unfold HasKey; intros H db di ds df.
  assert (F : find (key_is k) (keys this) = None)
    by (destruct (find (key_is k) (keys this)); [discriminate | reflexivity]).
  unfold GetBool, GetInt, GetString, GetFloat, GetDouble; rewrite F.
  repeat split.
  apply find_none_all in F.
  intros c; destruct c; simpl;
    unfold SetBool, SetInt, SetFloat, SetString, ClearKey;
    rewrite update_first_none by exact F; apply set_keys_same.
Qed.

(** X8: a section without the key [zz]. *)
Lemma missing_key_defaults_witness :
  let kv := section_of [entry "a" "1"] in
  let nothing := fun (e : Z) (_ : cstring) => (S754_zero false, e) in
  GetBool kv (str "zz") true = (kv, true)
  /\ GetInt ERANGE kv (str "zz") 7 = (kv, 7%Z, ERANGE)
  /\ GetString kv (str "zz") None = None
  /\ GetFloat nothing (fun x => x) ERANGE kv (str "zz") (S754_zero true)
     = (S754_zero true, ERANGE)
  /\ GetDouble nothing ERANGE kv (str "zz") (S754_zero true)
     = (S754_zero true, ERANGE)
  /\ forall c, apply_change c kv (str "zz") = kv.
Proof.
  intros kv nothing.
  apply (missing_key_defaults nothing (fun x => x) ERANGE kv (str "zz"));
    reflexivity.
Defined.

(** * Further properties of the scanner *)

Lemma isspace_cases (c : ascii) :
  _internal_isspace c = true -> c = SPACE \/ c = TAB \/ c = LF \/ c = CR.
Proof.
  unfold _internal_isspace; rewrite !orb_true_iff, !Ascii.eqb_eq; tauto.
Qed.

(** White space between tokens, the carriage return as well. *)
Lemma body_white (prev : option ascii) (c : ascii) (next : option ascii)
    (st : locals) (pk : bool) (ck : Key) (kv : KeyValues)
    (bl : list KeyValues) :
  core st = mkCore false false pk [] ck kv bl ->
  _internal_isspace c = true ->
  exists st',
    (body prev c next st = Continue st' \/ body prev c next st = FallOut st')
    /\ core st' = mkCore false false pk [] ck kv bl.
Proof.
  intros Hc Hs; open_state st Hc.
  destruct (isspace_cases c Hs) as [E|[E|[E|E]]]; subst c;
    unfold body; destruct prev, next; cbn; eexists; split;
    try (left; reflexivity); try (right; reflexivity); reflexivity.
Qed.

Lemma skip_ws_suffix (p : ascii) (r : list ascii) :
  exists pre, r = pre ++ snd (skip_ws p r).
Proof.
  revert p; induction r as [|w r IH]; intros p; simpl.
  - exists []; reflexivity.
  - destruct (_internal_isspace w).
    + destruct (IH w) as [pre E]; exists (w :: pre); simpl; now rewrite <- E.
    + exists []; reflexivity.
Qed.

Lemma scan_white (s : list ascii) :
  forallb _internal_isspace s = true ->
  forall (prev : option ascii) (st : locals) (pk : bool) (ck : Key)
         (kv : KeyValues) (bl : list KeyValues),
  core st = mkCore false false pk [] ck kv bl ->
  exists st', scan prev s st = Finished st'
              /\ core st' = mkCore false false pk [] ck kv bl.
Proof.
  remember (length s) as n eqn:En; revert s En.
  induction n as [n IH] using lt_wf_ind; intros [|c s] En Hs prev st pk ck kv
    bl Hc.
  - exists st; split; [reflexivity | exact Hc].
  - simpl in Hs; apply andb_true_iff in Hs as [Hc1 Hs].
    destruct (body_white prev c (hd_error s) st pk ck kv bl Hc Hc1)
      as (st1 & [B|B] & C1); rewrite scan_cons, B.
    + apply (IH (length s)); simpl in En; try lia; auto.
    + destruct (skip_ws_suffix c s) as [pre E].
      apply (IH (length (snd (skip_ws c s)))); auto.
      * pose proof (skip_ws_length c s); simpl in En; lia.
      * rewrite E, forallb_app in Hs; apply andb_true_iff in Hs; tauto.
Qed.

Lemma no_nul_white (s : list ascii) :
  forallb _internal_isspace s = true -> no_nul s = true.
Proof.
  unfold no_nul; rewrite !forallb_forall; intros H c Hc.
  destruct (isspace_cases c (H c Hc)) as [E|[E|[E|E]]]; subst c; reflexivity.
Qed.

Lemma core_enter (g : garbage) (this : KeyValues) :
  core (enter g this)
  = mkCore false false false [] (mkKey None None NONE (g_quoted g)) this [].
Proof. reflexivity. Qed.

(** The value returned when the loop ends between two tokens with every
    section closed. *)
Lemma ParseString_finished (g : garbage) (this : KeyValues)
    (text : list ascii) (st : locals) (cm pk : bool) (bf : list ascii)
    (ck : Key) (kv : KeyValues) :
  no_nul text = true ->
  scan None text (enter g this) = Finished st ->
  core st = mkCore false cm pk bf ck kv [] ->
  ParseString g this text (-1) = Returned true (set_good true kv) [].
Proof.
  intros Hn E Hc; unfold ParseString; rewrite (text_of_strlen _ Hn).
  pose proof (scan_sound None text (enter g this) (enter_sound g this)) as S.
  rewrite E in *; rewrite (finish_sound st S).
  open_state st Hc; reflexivity.
Qed.

(** X9.  Parsing only adds.  When [ParseString] or [ParseFile] returns,
    with either value, the object holds everything it held before the
    call: every section is where it was under the name it had, its
    entries come first in their order and its children first in theirs.
    What was read has been put after them. *)
Theorem parse_only_adds (g : garbage) (this : KeyValues) (ret : bool)
    (this' : KeyValues) (errors : list report) :
  (forall string len,
     ParseString g this string len = Returned ret this' errors ->
     extends this this')
  /\ (forall contents,
        ParseFile g this contents = Returned ret this' errors ->
        extends this this').
Proof.
  assert (P : forall string len r t e,
            ParseString g this string len = Returned r t e -> extends this t).
  { intros string len r t e; unfold ParseString.
    pose proof (scan_extends None (text_of string len) (enter g this)) as X.
    pose proof (scan_sound None (text_of string len) (enter g this)
                  (enter_sound g this)) as S.
    assert (E0 : extends this (document (enter g this)))
      by (unfold document; simpl; apply extends_flag, extends_refl).
    destruct (scan None (text_of string len) (enter g this)) as [st|st|u].
    - rewrite (finish_sound st S); intros H; inversion H; subst; clear H.
      eapply extends_trans; [exact E0|].
      eapply extends_trans; [exact X|].
      unfold document; apply extends_set_good, extends_refl.
    - intros H; inversion H; subst; clear H.
      eapply extends_trans; eauto.
    - discriminate. }
  split; [intros string len; apply P|].
  intros [buffer|]; unfold ParseFile.
  - destruct (ParseString g this buffer (Z.of_nat (length buffer)))
      as [r t e|u] eqn:E; [|discriminate].
    intros H; inversion H; subst; clear H; exact (P _ _ _ _ _ E).
  - intros H; inversion H; subst; clear H.
    apply extends_flag, extends_refl.
Qed.

(** X9: a second text read into a section that has an entry, and a file
    that cannot be opened. *)
Lemma parse_only_adds_witness :
  let kv := section_of [entry "a" "1"] in
  extends kv (set_good true (push_key (entry "k" "v") kv))
  /\ extends kv (set_good false kv).
Proof.
  intros kv; split.
  - apply (proj1 (parse_only_adds g0 kv true _ []) (str "k v" ++ [LF])
             (-1)%Z).
    vm_compute; reflexivity.
  - apply (proj2 (parse_only_adds g0 kv false _ []) None).
    vm_compute; reflexivity.
Defined.

(** X10.  A text of white space only (spaces, tabs, newlines, carriage
    returns, or nothing at all) parses without a report and adds nothing:
    [ParseString] returns true and the object is as before, with its flag
    set. *)
Theorem white_space_only (g : garbage) (this : KeyValues) (s : list ascii) :
  forallb _internal_isspace s = true ->
  ParseString g this s (-1) = Returned true (set_good true this) [].
Proof.
  intros Hs.
  destruct (scan_white s Hs None (enter g this) _ _ _ _ (core_enter g this))
    as (st & E & C).
  exact (ParseString_finished g this s st _ _ _ _ _ (no_nul_white s Hs) E C).
Qed.

(** X10: a blank line with a carriage return. *)
Lemma white_space_only_witness :
  ParseString g0 (section_of [entry "a" "1"]) [SPACE; TAB; CR; LF; SPACE] (-1)
  = Returned true (section_of [entry "a" "1"]) [].
Proof.
  apply (white_space_only g0 (section_of [entry "a" "1"])
           [SPACE; TAB; CR; LF; SPACE]).
  reflexivity.
Defined.

(** A character of a token outside quotes never stores anything: it goes
    to the buffer, or starts a comment, or is dropped inside one. *)
Lemma body_inert (prev : option ascii) (c : ascii) (next : option ascii)
    (st : locals) :
  plain_char c = true -> inquote st = false -> length (buf st) < BUF_SIZE ->
  exists st', body prev c next st = Continue st'
              /\ inquote st' = false /\ CurrentKV st' = CurrentKV st
              /\ below st' = below st
              /\ length (buf st') <= S (length (buf st)).
Proof.
  intros Hp Hq Hl.
  destruct (plain_char_facts c Hp) as (F1 & F3 & F4 & F5 & F6 & F7).
  destruct st as [l n b q cm pk bf ck kv bl p x gd rp]; simpl in Hq, Hl.
  subst q; unfold body; destruct prev, next; cbn -[Nat.leb BUF_SIZE];
    rewrite F1, F3, F4, F5, F6, ?andb_true_r; cbn -[Nat.leb BUF_SIZE];
    rewrite (room _ Hl);
    repeat match goal with
    | |- context [if ?b then _ else _] => destruct b
    end;
    eexists; (split; [reflexivity|]); simpl; rewrite ?length_app; simpl;
    repeat split; lia.
Qed.

Lemma scan_inert (t : list ascii) :
  forallb plain_char t = true ->
  forall (prev : option ascii) (st : locals),
  inquote st = false -> length (buf st) + length t <= BUF_SIZE ->
  exists st', scan prev t st = Finished st'
              /\ inquote st' = false /\ CurrentKV st' = CurrentKV st
              /\ below st' = below st.
Proof.
  induction t as [|c t IH]; intros Hp prev st Hq Hl.
  - exists st; repeat split; assumption.
  - simpl in Hp, Hl; apply andb_true_iff in Hp as [Hc Ht].
    destruct (body_inert prev c (hd_error t) st Hc Hq)
      as (st1 & B & Q1 & K1 & B1 & L1); [lia|].
    rewrite (scan_continue _ _ _ _ _ B).
    destruct (IH Ht (Some c) (next_char st1)) as (st2 & E & Q2 & K2 & B2);
      [exact Q1 | simpl; lia |].
    exists st2; split; [exact E|]; simpl in K2, B2; repeat split; congruence.
Qed.

Lemma ParseString_ended (g : garbage) (this : KeyValues)
    (text : list ascii) (st : locals) :
  no_nul text = true ->
  scan None text (enter g this) = Finished st ->
  inquote st = false -> below st = [] ->
  ParseString g this text (-1) = Returned true (set_good true (CurrentKV st)) [].
Proof.
  intros Hn E Hq Hb.
  apply (ParseString_finished g this text st (incomment st) (parsed_key st)
           (buf st) (CurrentKey st) (CurrentKV st) Hn E).
  unfold core; now rewrite Hq, Hb.
Qed.

Lemma no_nul_plain (t : list ascii) :
  forallb plain_char t = true -> no_nul t = true.
Proof.
  unfold no_nul; rewrite !forallb_forall; intros H c Hc.
  destruct (plain_char_facts c (H c Hc)) as (_ & _ & _ & _ & _ & F).
  now rewrite F.
Qed.

(** A carriage return outside quotes is white space as the space and
    the tab are. *)
Lemma body_carriage_return (prev next : option ascii) (st : locals)
    (pk : bool) (bf : list ascii) (ck : Key) (kv : KeyValues)
    (bl : list KeyValues) :
  core st = mkCore false false pk bf ck kv bl ->
  length bf < BUF_SIZE ->
  exists st', body prev CR next st = FallOut st'
    /\ core st' =
       match bf with
       | [] => mkCore false false pk [] ck kv bl
       | _ :: _ =>
           if pk
           then mkCore false false false [] (mkKey None None (cached ck) false)
                  (push_key (mkKey (key ck) (Some (kvstrdup bf)) (cached ck)
                               false) kv) bl
           else mkCore false false true []
                  (mkKey (Some (kvstrdup bf)) (value ck) (cached ck) false)
                  kv bl
       end.
Proof.
  intros Hc Hl; open_state st Hc.
  unfold body; destruct prev, next;
    cbn -[Nat.leb BUF_SIZE]; rewrite ?(room _ Hl); destruct bf;
    cbn -[Nat.leb BUF_SIZE]; rewrite ?(room _ Hl); destruct pk;
    eexists; split; reflexivity.
Qed.

(** An entry without quotes and one character of white space after it. *)
Lemma ParseString_plain_entry (g : garbage) (this : KeyValues)
    (k v : cstring) (x : ascii) :
  plain_token k = true -> plain_token v = true ->
  _internal_isspace x = true ->
  ParseString g this (k ++ SPACE :: v ++ [x]) (-1)
  = Returned true
      (set_good true (push_key (mkKey (Some k) (Some v) NONE false) this)) [].
Proof.
  intros Hk Hv Hxs.
  destruct (plain_token_facts k Hk) as (_ & _ & _ & _ & _ & Hpk & _).
  destruct (plain_token_facts v Hv) as (c & v' & Ev & Hc & Hl & Hp & Hs).
  assert (Hx : _internal_isspace c = false)
    by now destruct (plain_char_facts c Hc) as (_ & _ & _ & _ & F & _).
  apply isspace_cases in Hxs.
  assert (Hn : no_nul (k ++ SPACE :: v ++ [x]) = true).
  { rewrite no_nul_app; simpl; rewrite no_nul_app.
    rewrite (no_nul_plain k Hpk), (no_nul_plain v Hp).
    destruct Hxs as [E|[E|[E|E]]]; subst x; reflexivity. }
  destruct (scan_plain_key k c (v' ++ [x]) None (enter g this) _ _ _
              (core_enter g this) Hk Hx) as (p1 & s1 & E1 & C1).
  simpl in C1.
  destruct (scan_plain v x [] p1 s1 _ _ _ _ _ C1 Hp (Hs _))
    as (p2 & s2 & E2 & C2);
    [destruct Hxs as [E|[E|[E|E]]]; subst x; reflexivity
    | simpl; exact Hl |].
  simpl in C2.
  assert (F : exists s3, scan p2 [x] s2 = Finished s3
            /\ core s3 = mkCore false false false []
                 (mkKey None None NONE false)
                 (push_key (mkKey (Some k) (Some (kvstrdup v)) NONE false)
                    this) []).
  { destruct Hxs as [E|[E|[E|E]]]; subst x.
    - destruct (body_blank p2 SPACE None s2 _ _ _ _ _ C2 (or_introl eq_refl)
                  Hl) as (s3 & B & C3).
      rewrite scan_cons; simpl hd_error; rewrite B.
      exists (next_char s3); split; [reflexivity|].
      rewrite core_next_char, C3, Ev; reflexivity.
    - destruct (body_blank p2 TAB None s2 _ _ _ _ _ C2 (or_intror eq_refl)
                  Hl) as (s3 & B & C3).
      rewrite scan_cons; simpl hd_error; rewrite B.
      exists (next_char s3); split; [reflexivity|].
      rewrite core_next_char, C3, Ev; reflexivity.
    - destruct (body_newline p2 None s2 _ _ _ _ _ C2 Hl) as (s3 & B & C3).
      rewrite (scan_continue p2 LF [] s2 s3 B).
      exists (next_char s3); split; [reflexivity|].
      rewrite core_next_char, C3, Ev; reflexivity.
    - destruct (body_carriage_return p2 None s2 _ _ _ _ _ C2 Hl)
        as (s3 & B & C3).
      rewrite scan_cons; simpl hd_error; rewrite B.
      exists (next_char s3); split; [reflexivity|].
      rewrite core_next_char, C3, Ev; reflexivity. }
  destruct F as (s3 & E3 & C3).
  rewrite (kvstrdup_quoted v (forallb_plain_quoted v Hp)) in C3.
  refine (ParseString_finished g this _ s3 _ _ _ _ _ Hn _ C3).
  rewrite Ev; simpl; rewrite E1, <- E3, <- E2, Ev; reflexivity.
Qed.

(** X11.  A value without quotes that is the last thing in the text, with
    no character after it, is not stored: the text of a key, a space and
    the value parses without a report and adds no entry.  With one
    character of white space after the value (a space, a tab, a newline
    or a carriage return) the entry is added, marked as written without
    quotes. *)
Theorem value_at_end_of_text (g : garbage) (this : KeyValues)
    (k v : cstring) :
  plain_token k = true -> plain_token v = true ->
  ParseString g this (k ++ SPACE :: v) (-1)
    = Returned true (set_good true this) []
  /\ forall x, _internal_isspace x = true ->
       ParseString g this (k ++ SPACE :: v ++ [x]) (-1)
       = Returned true
           (set_good true (push_key (mkKey (Some k) (Some v) NONE false) this))
           [].
Proof.
  intros Hk Hv; split; [|intros x; now apply ParseString_plain_entry].
  destruct (plain_token_facts k Hk) as (_ & _ & _ & _ & _ & Hpk & _).
  destruct (plain_token_facts v Hv) as (c & v' & Ev & Hc & Hl & Hp & Hs).
  assert (Hx : _internal_isspace c = false)
    by now destruct (plain_char_facts c Hc) as (_ & _ & _ & _ & F & _).
  destruct (scan_plain_key k c v' None (enter g this) _ _ _
              (core_enter g this) Hk Hx) as (p1 & s1 & E1 & C1).
  unfold core in C1; injection C1 as Eq _ _ Eb _ Ek El.
  destruct (scan_inert v Hp p1 s1) as (s2 & E2 & Q2 & K2 & B2);
    [exact Eq | rewrite Eb; simpl; lia |].
  rewrite (ParseString_ended g this (k ++ SPACE :: v) s2).
  - now rewrite K2, Ek.
  - rewrite no_nul_app; simpl.
    now rewrite (no_nul_plain k Hpk), (no_nul_plain v Hp).
  - rewrite Ev, E1, <- Ev; exact E2.
  - exact Q2.
  - now rewrite B2.
Qed.

(** X11: the text [k v], alone, with a newline and with a carriage
    return at its end. *)
Lemma value_at_end_of_text_witness :
  ParseString g0 KeyValues_new (str "k v") (-1)
    = Returned true KeyValues_new []
  /\ ParseString g0 KeyValues_new (str "k v" ++ [LF]) (-1)
     = Returned true (section_of [entry "k" "v"]) []
  /\ ParseString g0 KeyValues_new (str "k v" ++ [CR]) (-1)
     = Returned true (section_of [entry "k" "v"]) [].
Proof.
  destruct (value_at_end_of_text g0 KeyValues_new (str "k") (str "v")
              eq_refl eq_refl) as [H1 H2].
  exact (conj H1 (conj (H2 LF eq_refl) (H2 CR eq_refl))).
Defined.

Lemma last_default_irrelevant (l : list ascii) (d d' : ascii) :
  l <> [] -> last l d = last l d'.
Proof.
  induction l as [|a [|b l] IH]; intros H; [contradiction | reflexivity|].
  change (last (b :: l) d = last (b :: l) d'); apply IH; discriminate.
Qed.

Lemma slashes_apart_app (p : ascii) (a b : list ascii) :
  slashes_apart p (a ++ b)
  = slashes_apart p a && slashes_apart (last a p) b.
Proof.
  revert p; induction a as [|c a IH]; intros p; [reflexivity|].
  change ((c :: a) ++ b) with (c :: (a ++ b)).
  cbn [slashes_apart]; rewrite IH, andb_assoc.
  destruct a as [|a l]; [reflexivity|].
  change (last (c :: a :: l) p) with (last (a :: l) p).
  now rewrite (last_default_irrelevant (a :: l) c p).
Qed.

Lemma may_be_slash_before (prev : option ascii) :
  may_be_slash prev = Ascii.eqb (char_before prev) SLASH.
Proof. destruct prev; reflexivity. Qed.

(** A slash of a token whose slashes are apart starts no comment. *)
Lemma slash_condition (prev : option ascii) (c : ascii) (t : list ascii)
    (x : ascii) (rest : list ascii) :
  slashes_apart (char_before prev) (c :: t ++ [x]) = true ->
  Ascii.eqb c SLASH
  && (may_be_slash prev || may_be_slash (hd_error (t ++ x :: rest))) = false.
Proof.
  cbn [slashes_apart]; intros Hs.
  apply andb_true_iff in Hs as [Hs1 Hs2]; apply negb_true_iff in Hs1.
  rewrite may_be_slash_before.
  destruct (Ascii.eqb c SLASH) eqn:Ec; [simpl in *|reflexivity].
  rewrite Hs1; simpl.
  destruct t as [|c2 t]; simpl in Hs2 |- *;
    apply andb_true_iff in Hs2 as [Hs2 _];
    rewrite Ec, andb_true_r in Hs2; now apply negb_true_iff in Hs2.
Qed.

(** A run of token characters outside quotes that may fill the buffer;
    [x] is the character after it. *)
Lemma scan_plain_fill (t : list ascii) (x : ascii) (rest : list ascii) :
  forall (prev : option ascii) (st : locals) (pk : bool) (bf : list ascii)
         (ck : Key) (kv : KeyValues) (bl : list KeyValues),
  core st = mkCore false false pk bf ck kv bl ->
  forallb plain_char t = true ->
  slashes_apart (char_before prev) (t ++ [x]) = true ->
  length bf + length t <= BUF_SIZE ->
  exists prev' st',
    scan prev (t ++ x :: rest) st = scan prev' (x :: rest) st'
    /\ core st' = mkCore false false pk (bf ++ t) ck kv bl
    /\ Ascii.eqb x SLASH && may_be_slash prev' = false.
Proof.
  induction t as [|c t IH]; intros prev st pk bf ck kv bl Hc Hp Hs Hl.
  - exists prev, st; split; [reflexivity|]; split; [now rewrite app_nil_r|].
    simpl in Hs; rewrite andb_true_r in Hs; apply negb_true_iff in Hs.
    now rewrite may_be_slash_before.
  - simpl in Hp, Hl; apply andb_true_iff in Hp as [Hp Ht].
    change ((c :: t) ++ [x]) with (c :: (t ++ [x])) in Hs.
    pose proof (slash_condition prev c t x rest Hs) as S.
    cbn [slashes_apart] in Hs; apply andb_true_iff in Hs as [_ Hs2].
    destruct (body_plain prev c (hd_error (t ++ x :: rest)) st pk bf ck kv bl
                Hc Hp S) as (st1 & B & C1); [lia|].
    change ((c :: t) ++ x :: rest) with (c :: (t ++ x :: rest)).
    rewrite (scan_continue _ _ _ _ _ B).
    destruct (IH (Some c) (next_char st1) pk (bf ++ [c]) ck kv bl)
      as (p2 & st2 & E & C2 & X2); auto.
    + rewrite length_app; simpl; lia.
    + exists p2, st2; split; [exact E|]; split; [|exact X2].
      now rewrite C2, <- app_assoc.
Qed.

(** Two slashes outside quotes start a comment; what is in the buffer
    stays there. *)
Lemma body_comment_start (prev : option ascii) (st : locals) (cm pk : bool)
    (bf : list ascii) (ck : Key) (kv : KeyValues) (bl : list KeyValues) :
  core st = mkCore false cm pk bf ck kv bl ->
  exists st', body prev SLASH (Some SLASH) st = Continue st'
              /\ core st' = mkCore false true pk bf ck kv bl.
Proof.
  intros Hc; open_state st Hc.
  unfold body; destruct prev; cbn; rewrite ?orb_true_r; cbn;
    eexists; split; reflexivity.
Qed.

(** Inside a comment every character but the newline is dropped. *)
Lemma body_in_comment (prev : option ascii) (c : ascii) (next : option ascii)
    (st : locals) (pk : bool) (bf : list ascii) (ck : Key) (kv : KeyValues)
    (bl : list KeyValues) :
  core st = mkCore false true pk bf ck kv bl ->
  Ascii.eqb c LF = false ->
  exists st', body prev c next st = Continue st'
              /\ core st' = mkCore false true pk bf ck kv bl.
Proof.
  intros Hc Hn; open_state st Hc.
  unfold body; destruct prev, next; cbn; rewrite Hn;
    repeat match goal with
    | |- context [if ?b then _ else _] => destruct b
    end; eexists; split; reflexivity.
Qed.

Lemma scan_in_comment (t rest : list ascii) :
  forallb (fun c => negb (Ascii.eqb c LF)) t = true ->
  forall (prev : option ascii) (st : locals) (pk : bool) (bf : list ascii)
         (ck : Key) (kv : KeyValues) (bl : list KeyValues),
  core st = mkCore false true pk bf ck kv bl ->
  exists prev' st',
    scan prev (t ++ rest) st = scan prev' rest st'
    /\ core st' = mkCore false true pk bf ck kv bl.
Proof.
  induction t as [|c t IH]; intros Ht prev st pk bf ck kv bl Hc.
  - exists prev, st; split; [reflexivity | exact Hc].
  - simpl in Ht; apply andb_true_iff in Ht as [Hn Ht].
    apply negb_true_iff in Hn.
    destruct (body_in_comment prev c (hd_error (t ++ rest)) st _ _ _ _ _
                Hc Hn) as (st1 & B & C1).
    change ((c :: t) ++ rest) with (c :: (t ++ rest)).
    rewrite (scan_continue _ _ _ _ _ B).
    apply IH; [exact Ht | now rewrite core_next_char].
Qed.

(** The newline that ends a comment stores the token that was in the
    buffer when the comment began. *)
Lemma body_newline_comment (prev next : option ascii) (st : locals)
    (pk : bool) (bf : list ascii) (ck : Key) (kv : KeyValues)
    (bl : list KeyValues) :
  core st = mkCore false true pk bf ck kv bl ->
  length bf < BUF_SIZE ->
  exists st', body prev LF next st = Continue st'
    /\ core st' =
       match bf with
       | [] => mkCore false false pk [] ck kv bl
       | _ :: _ =>
           if pk
           then mkCore false false false []
                  (mkKey None None (cached ck) (quoted ck))
                  (push_key (mkKey (key ck) (Some (kvstrdup bf)) (cached ck)
                               (quoted ck)) kv) bl
           else mkCore false false true []
                  (mkKey (Some (kvstrdup bf)) (value ck) (cached ck)
                     (quoted ck))
                  kv bl
       end.
Proof.
  intros Hc Hl; open_state st Hc.
  unfold body; destruct prev, next; cbn -[Nat.leb BUF_SIZE];
    rewrite (room _ Hl), ?andb_false_r; destruct bf; cbn; destruct pk;
    eexists; split; reflexivity.
Qed.

(** A comment: two slashes, then [t] up to the end of the line. *)
Lemma scan_comment (t rest : list ascii) (prev : option ascii) (st : locals)
    (pk : bool) (bf : list ascii) (ck : Key) (kv : KeyValues)
    (bl : list KeyValues) :
  core st = mkCore false false pk bf ck kv bl ->
  forallb (fun c => negb (Ascii.eqb c LF)) t = true ->
  exists prev' st',
    scan prev (SLASH :: SLASH :: t ++ rest) st = scan prev' rest st'
    /\ core st' = mkCore false true pk bf ck kv bl.
Proof.
  intros Hc Ht.
  destruct (body_comment_start prev st _ _ _ _ _ _ Hc) as (s1 & B & C1).
  rewrite (scan_continue prev SLASH (SLASH :: t ++ rest) st s1 B).
  apply (scan_in_comment (SLASH :: t) rest); [exact Ht|].
  now rewrite core_next_char.
Qed.

(** A key and the characters of a value, both without quotes, up to the
    character [x] after the value. *)
Lemma scan_plain_pair (k v : cstring) (x : ascii) (rest : list ascii)
    (prev : option ascii) (st : locals) (ck : Key) (kv : KeyValues)
    (bl : list KeyValues) :
  core st = mkCore false false false [] ck kv bl ->
  plain_token k = true -> plain_token v = true ->
  slashes_apart SLASH (v ++ [x]) = true ->
  exists prev' st',
    scan prev (k ++ SPACE :: v ++ x :: rest) st = scan prev' (x :: rest) st'
    /\ core st' = mkCore false false true v
                    (mkKey (Some k) (value ck) (cached ck) false) kv bl.
Proof.
  intros Hc Hk Hv Hx.
  destruct (plain_token_facts v Hv) as (c & v' & Ev & Hc1 & Hl & Hp & Hs).
  assert (Hn : _internal_isspace c = false)
    by now destruct (plain_char_facts c Hc1) as (_ & _ & _ & _ & F & _).
  destruct (scan_plain_key k c (v' ++ x :: rest) prev st _ _ _ Hc Hk Hn)
    as (p1 & s1 & E1 & C1).
  destruct (scan_plain_fill v x rest p1 s1 _ _ _ _ _ C1 Hp
              (slashes_apart_any _ _ Hx))
    as (p2 & s2 & E2 & C2 & _); [simpl; lia|].
  exists p2, s2; split; [|exact C2].
  rewrite <- E2, Ev; simpl; rewrite E1; reflexivity.
Qed.

Lemma slashes_apart_end (v : cstring) (x : ascii) :
  plain_token v = true -> Ascii.eqb x SLASH = false ->
  slashes_apart SLASH (v ++ [x]) = true.
Proof.
  intros Hv Hx.
  destruct (plain_token_facts v Hv) as (_ & _ & _ & _ & _ & _ & Hs).
  rewrite slashes_apart_app, Hs; simpl; now rewrite Hx.
Qed.

Lemma comment_text (t : list ascii) :
  forallb (fun c => negb (Ascii.eqb c LF) && negb (Ascii.eqb c NUL)) t = true ->
  forallb (fun c => negb (Ascii.eqb c LF)) t = true /\ no_nul t = true.
Proof.
  unfold no_nul; rewrite !forallb_forall; intros H; split; intros c Hc;
    specialize (H c Hc); apply andb_true_iff in H; tauto.
Qed.

Lemma no_nul_plain_token (t : cstring) : plain_token t = true -> no_nul t = true.
Proof.
  intros H; destruct (plain_token_facts t H) as (_ & _ & _ & _ & _ & Hp & _).
  now apply no_nul_plain.
Qed.

Ltac split_text :=
  unfold no_nul in *; repeat (rewrite ?forallb_app; cbn [forallb]);
  repeat match goal with
  | H : forallb _ _ = true |- _ => rewrite H
  end; reflexivity.

(** X12.  A comment runs from two slashes to the end of the line and
    nothing of it is read, whatever it holds: quotes, braces, more
    slashes.  After an entry and a blank, on a line of its own before an
    entry, or at the end of a text that has no final newline, the
    document read is the one read without the comment.  A comment that
    comes right after a value, with no blank between, ends the value
    where the slashes begin, provided the value does not end in a slash. *)
Theorem comment_runs_to_end_of_line (g : garbage) (this : KeyValues)
    (k v : cstring) (t : list ascii) :
  plain_token k = true -> plain_token v = true ->
  forallb (fun c => negb (Ascii.eqb c LF) && negb (Ascii.eqb c NUL)) t = true ->
  let read :=
    Returned true
      (set_good true (push_key (mkKey (Some k) (Some v) NONE false) this)) []
  in
  ParseString g this
    (k ++ SPACE :: v ++ SPACE :: SLASH :: SLASH :: t ++ [LF]) (-1) = read
  /\ ParseString g this
       (k ++ SPACE :: v ++ SPACE :: SLASH :: SLASH :: t) (-1) = read
  /\ ParseString g this
       (SLASH :: SLASH :: t ++ LF :: k ++ SPACE :: v ++ [LF]) (-1) = read
  /\ (slashes_apart SLASH (v ++ [SLASH]) = true ->
      ParseString g this
        (k ++ SPACE :: v ++ SLASH :: SLASH :: t ++ [LF]) (-1) = read).
Proof.
  intros Hk Hv Ht read; subst read.
  destruct (comment_text t Ht) as [Hlf Hnul].
  pose proof (no_nul_plain_token k Hk) as Nk.
  pose proof (no_nul_plain_token v Hv) as Nv.
  destruct (plain_token_facts v Hv) as (c & v' & Ev & _ & Hl & Hp & _).
  pose proof (kvstrdup_quoted v (forallb_plain_quoted v Hp)) as Dv.
  assert (blank : forall rest,
    exists p s,
      scan None (k ++ SPACE :: v ++ SPACE :: SLASH :: rest) (enter g this)
      = scan p (SLASH :: rest) s
      /\ core s = mkCore false false false [] (mkKey None None NONE false)
                    (push_key (mkKey (Some k) (Some v) NONE false) this) []).
  { intros rest.
    destruct (scan_plain_pair k v SPACE (SLASH :: rest) None (enter g this)
                _ _ _ (core_enter g this) Hk Hv
                (slashes_apart_end v SPACE Hv eq_refl))
      as (p1 & s1 & E1 & C1).
    destruct (body_blank p1 SPACE (Some SLASH) s1 _ _ _ _ _ C1
                (or_introl eq_refl) Hl) as (s2 & B & C2).
    rewrite E1, (scan_fallout p1 SPACE SLASH rest s1 s2 B eq_refl).
    do 2 eexists; split; [reflexivity|].
    rewrite core_next_char, C2, Ev, <- Ev, Dv; reflexivity. }
  repeat split.
  - destruct (blank (SLASH :: t ++ [LF])) as (p & s & E & C).
    destruct (scan_comment t [LF] p s _ _ _ _ _ C Hlf) as (p2 & s2 & E2 & C2).
    destruct (body_newline_comment p2 None s2 _ _ _ _ _ C2)
      as (s3 & B & C3); [simpl; unfold BUF_SIZE; lia|].
    refine (ParseString_finished g this _ (next_char s3) _ _ _ _ _ _ _ C3).
    + split_text.
    + rewrite E, E2, (scan_continue p2 LF [] s2 s3 B); reflexivity.
  - destruct (blank (SLASH :: t)) as (p & s & E & C).
    rewrite <- (app_nil_r t) in E.
    destruct (scan_comment t [] p s _ _ _ _ _ C Hlf) as (p2 & s2 & E2 & C2).
    refine (ParseString_finished g this _ s2 _ _ _ _ _ _ _ C2).
    + split_text.
    + rewrite <- (app_nil_r t), E, E2; reflexivity.
  - destruct (scan_comment t (LF :: k ++ SPACE :: v ++ [LF]) None
                (enter g this) _ _ _ _ _ (core_enter g this) Hlf)
      as (p1 & s1 & E1 & C1).
    destruct (body_newline_comment p1
                (hd_error (k ++ SPACE :: v ++ [LF])) s1 _ _ _ _ _ C1)
      as (s2 & B2 & C2); [simpl; unfold BUF_SIZE; lia|].
    destruct (scan_plain_pair k v LF [] (Some LF) (next_char s2) _ _ _ C2
                Hk Hv (slashes_apart_end v LF Hv eq_refl))
      as (p3 & s3 & E3 & C3).
    destruct (body_newline p3 None s3 _ _ _ _ _ C3 Hl) as (s4 & B4 & C4).
    rewrite Ev, <- Ev, Dv in C4.
    refine (ParseString_finished g this _ (next_char s4) _ _ _ _ _ _ _ C4).
    + split_text.
    + rewrite E1, (scan_continue _ _ _ _ _ B2), E3,
        (scan_continue p3 LF [] s3 s4 B4); reflexivity.
  - intros Hx.
    destruct (scan_plain_pair k v SLASH (SLASH :: t ++ [LF]) None
                (enter g this) _ _ _ (core_enter g this) Hk Hv Hx)
      as (p1 & s1 & E1 & C1).
    destruct (scan_comment t [LF] p1 s1 _ _ _ _ _ C1 Hlf)
      as (p2 & s2 & E2 & C2).
    destruct (body_newline_comment p2 None s2 _ _ _ _ _ C2 Hl)
      as (s3 & B & C3).
    rewrite Ev, <- Ev, Dv in C3.
    refine (ParseString_finished g this _ (next_char s3) _ _ _ _ _ _ _ C3).
    + split_text.
    + rewrite E1, E2, (scan_continue p2 LF [] s2 s3 B); reflexivity.
Qed.

(** X12: a comment with a quote and a brace in it. *)
Lemma comment_runs_to_end_of_line_witness :
  let note := SPACE :: DQUOTE :: str "no { entry" in
  let read := Returned true (section_of [entry "k" "v"]) [] in
  ParseString g0 KeyValues_new (str "k v //" ++ note ++ [LF]) (-1) = read
  /\ ParseString g0 KeyValues_new (str "k v //" ++ note) (-1) = read
  /\ ParseString g0 KeyValues_new
       (str "//" ++ note ++ LF :: str "k v" ++ [LF]) (-1) = read
  /\ ParseString g0 KeyValues_new (str "k v//" ++ note ++ [LF]) (-1) = read.
Proof.
  intros note read.
  destruct (comment_runs_to_end_of_line g0 KeyValues_new (str "k") (str "v")
              note eq_refl eq_refl eq_refl) as (H1 & H2 & H3 & H4).
  exact (conj H1 (conj H2 (conj H3 (H4 eq_refl)))).
Defined.

(** With [buf] full, the next character of the token is written past its
    end, and so is the NUL that ends the token. *)
Lemma body_overrun_plain (prev : option ascii) (c : ascii)
    (next : option ascii) (st : locals) (pk : bool) (bf : list ascii)
    (ck : Key) (kv : KeyValues) (bl : list KeyValues) :
  core st = mkCore false false pk bf ck kv bl ->
  plain_char c = true ->
  Ascii.eqb c SLASH && (may_be_slash prev || may_be_slash next) = false ->
  BUF_SIZE <= length bf ->
  body prev c next st = Undefined BufferOverrun.
Proof.
  intros Hc Hp Hs Hl.
  destruct (plain_char_facts c Hp) as (F1 & F3 & F4 & F5 & F6 & F7).
  apply Nat.leb_le in Hl.
  open_state st Hc.
  unfold body; destruct (Ascii.eqb c SLASH) eqn:Ec; destruct prev, next;
    cbn -[Nat.leb BUF_SIZE] in Hs |- *; rewrite ?orb_true_r in Hs;
    try discriminate;
    rewrite F1, ?Hs, F3, F4, F5, F6; cbn -[Nat.leb BUF_SIZE];
    now rewrite Hl.
Qed.

Lemma body_overrun_white (prev : option ascii) (c : ascii)
    (next : option ascii) (st : locals) (pk : bool) (bf : list ascii)
    (ck : Key) (kv : KeyValues) (bl : list KeyValues) :
  core st = mkCore false false pk bf ck kv bl ->
  _internal_isspace c = true -> BUF_SIZE <= length bf ->
  body prev c next st = Undefined BufferOverrun.
Proof.
  intros Hc Hs Hl.
  assert (H0 : (0 <? length bf) = true)
    by (apply Nat.ltb_lt; unfold BUF_SIZE in Hl; lia).
  apply Nat.leb_le in Hl.
  open_state st Hc.
  destruct (isspace_cases c Hs) as [E|[E|[E|E]]]; subst c;
    unfold body; destruct prev, next; cbn -[Nat.leb Nat.ltb BUF_SIZE];
    now rewrite ?H0, ?Hl.
Qed.

Lemma scan_overrun (t : list ascii) (x : ascii) (rest : list ascii) :
  forall (prev : option ascii) (st : locals) (pk : bool) (bf : list ascii)
         (ck : Key) (kv : KeyValues) (bl : list KeyValues),
  core st = mkCore false false pk bf ck kv bl ->
  forallb plain_char t = true ->
  slashes_apart (char_before prev) (t ++ [x]) = true ->
  _internal_isspace x = true ->
  BUF_SIZE <= length bf + length t ->
  scan prev (t ++ x :: rest) st = Crashed BufferOverrun.
Proof.
  induction t as [|c t IH]; intros prev st pk bf ck kv bl Hc Hp Hs Hx Hl.
  - simpl in Hl |- *; rewrite scan_cons.
    rewrite (body_overrun_white _ _ _ _ _ _ _ _ _ Hc Hx); [reflexivity | lia].
  - simpl in Hp, Hl; apply andb_true_iff in Hp as [Hp Ht].
    change ((c :: t) ++ [x]) with (c :: (t ++ [x])) in Hs.
    pose proof (slash_condition prev c t x rest Hs) as S.
    cbn [slashes_apart] in Hs; apply andb_true_iff in Hs as [_ Hs2].
    change ((c :: t) ++ x :: rest) with (c :: (t ++ x :: rest)).
    destruct (Nat.lt_ge_cases (length bf) BUF_SIZE) as [Hr|Hr].
    + destruct (body_plain prev c (hd_error (t ++ x :: rest)) st pk bf ck kv
                  bl Hc Hp S Hr) as (st1 & B & C1).
      rewrite (scan_continue _ _ _ _ _ B).
      apply (IH (Some c) (next_char st1) pk (bf ++ [c]) ck kv bl); auto.
      rewrite length_app; simpl; lia.
    + rewrite scan_cons.
      now rewrite (body_overrun_plain _ _ _ _ _ _ _ _ _ Hc Hp S Hr).
Qed.

Lemma c_str_app (a b : list ascii) :
  no_nul a = true -> c_str (a ++ b) = a ++ c_str b.
Proof.
  induction a as [|c a IH]; simpl; [reflexivity|].
  intros H; apply andb_true_iff in H as [Hc Ha].
  apply negb_true_iff in Hc; now rewrite Hc, IH.
Qed.

(** X13.  A token without quotes of 512 characters or more, followed by
    white space, makes the scanner write past the end of its buffer of
    512 bytes: the call has no defined behaviour, whatever comes after
    the token. *)
Theorem long_token_overruns_buffer (g : garbage) (this : KeyValues)
    (t : list ascii) (x : ascii) (rest : list ascii) :
  forallb plain_char t = true -> slashes_apart SLASH t = true ->
  BUF_SIZE <= length t -> _internal_isspace x = true ->
  ParseString g this (t ++ x :: rest) (-1) = NoBehaviour BufferOverrun.
Proof.
  intros Hp Hs Hl Hx; unfold ParseString, text_of; simpl.
  rewrite (c_str_app t (x :: rest) (no_nul_plain t Hp)).
  assert (Nx : Ascii.eqb x NUL = false /\ Ascii.eqb x SLASH = false)
    by (destruct (isspace_cases x Hx) as [E|[E|[E|E]]]; subst x; split;
        reflexivity).
  destruct Nx as [Nx Sx]; simpl; rewrite Nx.
  rewrite (scan_overrun t x (c_str rest) None (enter g this) _ _ _ _ _
             (core_enter g this) Hp); auto.
  rewrite slashes_apart_app; simpl; rewrite Hs, Sx; reflexivity.
Qed.

(** X13: 512 times the letter a, then a space. *)
Lemma long_token_overruns_buffer_witness :
  ParseString g0 KeyValues_new (repeat "a"%char 512 ++ [SPACE]) (-1)
  = NoBehaviour BufferOverrun.
Proof.
  apply (long_token_overruns_buffer g0 KeyValues_new (repeat "a"%char 512)
           SPACE []).
  - vm_compute; reflexivity.
  - vm_compute; reflexivity.
  - apply Nat.leb_le; vm_compute; reflexivity.
  - reflexivity.
Defined.

Lemma text_of_length (s : list ascii) : text_of s (Z.of_nat (length s)) = s.
Proof.
  unfold text_of.
  replace (Z.of_nat (length s) <? 0)%Z with false
    by (symmetry; apply Z.ltb_ge; lia).
  rewrite Nat2Z.id; apply firstn_all.
Qed.

(** X14.  [ParseFile] on a file that could be opened is [ParseString] on
    its contents with their length: same object, same reports, same value
    returned.  When the contents hold no NUL it is also [ParseString]
    with no length given, and [FromFile] returns what [FromString]
    returns. *)
Theorem ParseFile_as_ParseString (g : garbage) (this : KeyValues)
    (s : list ascii) :
  ParseFile g this (Some s) = ParseString g this s (Z.of_nat (length s))
  /\ (no_nul s = true ->
      ParseFile g this (Some s) = ParseString g this s (-1)
      /\ FromFile g (Some s) = FromString g s).
Proof.
  assert (E : ParseFile g this (Some s)
              = ParseString g this s (Z.of_nat (length s))).
  { unfold ParseFile.
    destruct (ParseString g this s (Z.of_nat (length s)))
      as [ret this' errs|u] eqn:P; [|reflexivity].
    now destruct (ParseString_flag _ _ _ _ _ _ _ P) as [-> _]. }
  split; [exact E|]; intros Hn.
  assert (E' : forall t, ParseString g t s (Z.of_nat (length s))
                         = ParseString g t s (-1)).
  { intros t; unfold ParseString.
    now rewrite text_of_length, (text_of_strlen s Hn). }
  split; [now rewrite E, E'|].
  unfold FromFile, FromString, ParseFile.
  rewrite E'.
  destruct (ParseString g KeyValues_new s (-1)) as [ret this' errs|u] eqn:P;
    [|reflexivity].
  now destruct (ParseString_flag _ _ _ _ _ _ _ P) as [-> _].
Qed.

(** X14: a file with one entry and an unfinished section. *)
Lemma ParseFile_as_ParseString_witness :
  let s := str "k v" ++ LF :: str "A {" ++ [LF] in
  ParseFile g0 KeyValues_new (Some s) = ParseString g0 KeyValues_new s (-1)
  /\ FromFile g0 (Some s) = FromString g0 s.
Proof.
  intros s.
  apply (proj2 (ParseFile_as_ParseString g0 KeyValues_new s)).
  reflexivity.
Defined.

Lemma find_app {A : Type} (p : A -> bool) (l l' : list A) :
  find p (l ++ l')
  = match find p l with Some x => Some x | None => find p l' end.
Proof.
  induction l as [|a l IH]; simpl; [reflexivity|].
  destruct (p a); [reflexivity | exact IH].
Qed.

(** X15.  An entry that has been parsed is found.  After the line of a
    key and a value is read into a section, [HasKey] is true for the key;
    [GetString] returns the value read if the section had no entry of
    that key, and otherwise still the value of the entry it had: the
    first entry of a key is the one the getters see.  Other keys are
    answered as before. *)
Theorem parsed_entry_is_read (g : garbage) (this : KeyValues) (k v : cstring)
    (d : option cstring) :
  plain_token k = true -> plain_token v = true ->
  exists this',
    ParseString g this (k ++ SPACE :: v ++ [LF]) (-1) = Returned true this' []
    /\ HasKey this' k = true
    /\ GetString this' k d
       = (if HasKey this k then GetString this k d else Some v)
    /\ forall k', k' <> k ->
         HasKey this' k' = HasKey this k'
         /\ GetString this' k' d = GetString this k' d.
Proof.
  intros Hk Hv; eexists; split.
  - apply ParseString_plain_entry; auto.
  - assert (Hit : key_is k (mkKey (Some k) (Some v) NONE false) = true)
      by now apply key_is_iff.
    unfold HasKey, GetString; cbn [keys set_good push_key set_keys].
    split; [|split; [|intros k' Hn; split]]; rewrite find_app; cbn [find];
      rewrite ?Hit, ?(key_is_other k k' _ Hn Hit);
      match goal with
      | |- context [find ?p (keys this)] => destruct (find p (keys this))
      end; reflexivity.
Qed.

(** X15: the key is read a second time with another value. *)
Lemma parsed_entry_is_read_witness :
  let kv := section_of [entry "k" "old"] in
  exists this',
    ParseString g0 kv (str "k new" ++ [LF]) (-1) = Returned true this' []
    /\ HasKey this' (str "k") = true
    /\ GetString this' (str "k") None
       = (if HasKey kv (str "k") then GetString kv (str "k") None
          else Some (str "new"))
    /\ forall k', k' <> str "k" ->
         HasKey this' k' = HasKey kv k'
         /\ GetString this' k' None = GetString kv k' None.
Proof.
  intros kv.
  exact (parsed_entry_is_read g0 kv (str "k") (str "new") None
           eq_refl eq_refl).
Defined.

(** A closing brace looks at nothing but the stack: a token in the buffer
    stays there. *)
Lemma body_close_brace_pending (prev next : option ascii) (st : locals)
    (pk : bool) (bf : list ascii) (ck : Key) (kv parent : KeyValues)
    (bl : list KeyValues) :
  core st = mkCore false false pk bf ck kv (parent :: bl) ->
  exists st', body prev RBRACE next st = Continue st'
    /\ core st' = mkCore false false pk bf ck (push_child kv parent) bl.
Proof.
  intros Hc; open_state st Hc.
  unfold body; destruct prev, next; cbn; eexists; split; reflexivity.
Qed.

Lemma body_open_brace_overrun (prev next : option ascii) (st : locals)
    (k : cstring) (v : option cstring) (c : ELastCached) (q : bool)
    (kv : KeyValues) (bl : list KeyValues) :
  core st = mkCore false false true [] (mkKey (Some k) v c q) kv bl ->
  STACK_SIZE <= S (length bl) ->
  body prev LBRACE next st = Undefined StackOverrun.
Proof.
  intros Hc Hl; open_state st Hc.
  assert (E : (STACK_SIZE <=? S (length bl)) = true) by now apply Nat.leb_le.
  unfold body; destruct prev, next; cbn -[Nat.leb STACK_SIZE]; now rewrite E.
Qed.

(** The name of a section and its opening brace, on one line. *)
Lemma scan_open_section (n : cstring) (x : ascii) (rest : list ascii)
    (prev : option ascii) (st : locals) (ck : Key) (kv : KeyValues)
    (bl : list KeyValues) :
  core st = mkCore false false false [] ck kv bl ->
  plain_token n = true -> S (length bl) < STACK_SIZE ->
  _internal_isspace x = false ->
  exists prev' st',
    scan prev (n ++ SPACE :: LBRACE :: SPACE :: x :: rest) st
    = scan prev' (x :: rest) st'
    /\ core st' = mkCore false false false []
                    (mkKey None (value ck) (cached ck) false)
                    (mkKeyValues (Some n) true false [] []) (kv :: bl).
Proof.
  intros Hc Hn Hl Hx.
  destruct (plain_token_facts n Hn) as (_ & _ & _ & _ & _ & Hp & _).
  destruct (scan_plain_key n LBRACE (SPACE :: x :: rest) prev st _ _ _ Hc Hn
              LBRACE_not_space) as (p1 & s1 & E1 & C1).
  destruct (body_open_brace p1 (Some SPACE) s1 _ _ _ _ _ _ C1 Hl)
    as (s2 & B2 & C2).
  rewrite (kvstrdup_quoted n (forallb_plain_quoted n Hp)) in C2.
  destruct (scan_blank_idle SPACE x rest (Some LBRACE) (next_char s2) _ _ _ _
              C2 (or_introl eq_refl) Hx) as (p3 & s3 & E3 & C3).
  exists p3, s3; split; [|exact C3].
  rewrite E1, (scan_continue p1 LBRACE (SPACE :: x :: rest) s1 s2 B2).
  exact E3.
Qed.

(** A section with one entry, written on one line. *)
Lemma ParseString_section (g : garbage) (this : KeyValues) (n k v : cstring) :
  plain_token n = true -> plain_token k = true -> plain_token v = true ->
  ParseString g this
    (n ++ SPACE :: LBRACE :: SPACE :: k ++ SPACE :: v
       ++ SPACE :: RBRACE :: [LF]) (-1)
  = Returned true
      (set_good true
         (push_child
            (mkKeyValues (Some n) true false
               [mkKey (Some k) (Some v) NONE false] []) this)) [].
Proof.
  intros Hn Hk Hv.
  pose proof (no_nul_plain_token n Hn) as Nn.
  pose proof (no_nul_plain_token k Hk) as Nk.
  pose proof (no_nul_plain_token v Hv) as Nv.
  destruct (plain_token_facts v Hv) as (c & v' & Ev & _ & Hl & Hp & _).
  pose proof (kvstrdup_quoted v (forallb_plain_quoted v Hp)) as Dv.
  destruct (plain_token_facts k Hk) as (k0 & k' & Ek & Hk0p & _).
  assert (Hk0 : _internal_isspace k0 = false)
    by now destruct (plain_char_facts k0 Hk0p) as (_ & _ & _ & _ & F & _).
  destruct (scan_open_section n k0 (k' ++ SPACE :: v ++ SPACE :: RBRACE :: [LF])
              None (enter g this) _ _ _ (core_enter g this) Hn)
    as (p1 & s1 & E1 & C1); [simpl; unfold STACK_SIZE; lia | exact Hk0 |].
  simpl in C1.
  destruct (scan_plain_pair k v SPACE (RBRACE :: [LF]) p1 s1 _ _ _ C1 Hk Hv
              (slashes_apart_end v SPACE Hv eq_refl)) as (p2 & s2 & E2 & C2).
  destruct (body_blank p2 SPACE (Some RBRACE) s2 _ _ _ _ _ C2
              (or_introl eq_refl) Hl) as (s3 & B3 & C3).
  rewrite Ev, <- Ev, Dv in C3; simpl in C3.
  rewrite <- core_next_char in C3.
  destruct (body_close_brace (Some SPACE) (Some LF) (next_char s3) _ _ _ _ C3)
    as (s4 & B4 & C4).
  rewrite <- core_next_char in C4.
  destruct (scan_newline [] (Some RBRACE) (next_char s4) _ _ _ _ C4)
    as (p5 & s5 & E5 & C5).
  refine (ParseString_finished g this _ s5 _ _ _ _ _ _ _ C5).
  - split_text.
  - change (scan p5 [] s5) with (Finished s5) in E5.
    rewrite Ek in E2 |- *; cbn [app] in E2 |- *.
    rewrite E1, E2, (scan_fallout p2 SPACE RBRACE [LF] s2 s3 B3 RBRACE_not_space).
    rewrite (scan_continue (Some SPACE) RBRACE [LF] (next_char s3) s4 B4).
    exact E5.
Qed.

(** X16.  The brace that closes a section does not end a token.  In
    [n { k v }] the entry belongs to the section [n].  In [n { k v}],
    where the brace comes right after the value, the section is closed
    empty and the value stays in the buffer; the newline then stores the
    entry in the enclosing section. *)
Theorem brace_after_value (g : garbage) (this : KeyValues) (n k v : cstring) :
  plain_token n = true -> plain_token k = true -> plain_token v = true ->
  let e := mkKey (Some k) (Some v) NONE false in
  ParseString g this
    (n ++ SPACE :: LBRACE :: SPACE :: k ++ SPACE :: v
       ++ SPACE :: RBRACE :: [LF]) (-1)
  = Returned true
      (set_good true
         (push_child (mkKeyValues (Some n) true false [e] []) this)) []
  /\ ParseString g this
       (n ++ SPACE :: LBRACE :: SPACE :: k ++ SPACE :: v ++ RBRACE :: [LF])
       (-1)
     = Returned true
         (set_good true
            (push_key e
               (push_child (mkKeyValues (Some n) true false [] []) this))) [].
Proof.
  intros Hn Hk Hv e; subst e; split; [now apply ParseString_section|].
  pose proof (no_nul_plain_token n Hn) as Nn.
  pose proof (no_nul_plain_token k Hk) as Nk.
  pose proof (no_nul_plain_token v Hv) as Nv.
  destruct (plain_token_facts v Hv) as (c & v' & Ev & _ & Hl & Hp & _).
  pose proof (kvstrdup_quoted v (forallb_plain_quoted v Hp)) as Dv.
  destruct (plain_token_facts k Hk) as (k0 & k' & Ek & Hk0p & _).
  assert (Hk0 : _internal_isspace k0 = false)
    by now destruct (plain_char_facts k0 Hk0p) as (_ & _ & _ & _ & F & _).
  destruct (scan_open_section n k0 (k' ++ SPACE :: v ++ RBRACE :: [LF])
              None (enter g this) _ _ _ (core_enter g this) Hn)
    as (p1 & s1 & E1 & C1); [simpl; unfold STACK_SIZE; lia | exact Hk0 |].
  simpl in C1.
  destruct (scan_plain_pair k v RBRACE [LF] p1 s1 _ _ _ C1 Hk Hv
              (slashes_apart_end v RBRACE Hv eq_refl)) as (p2 & s2 & E2 & C2).
  destruct (body_close_brace_pending p2 (Some LF) s2 _ _ _ _ _ _ C2)
    as (s3 & B3 & C3).
  rewrite <- core_next_char in C3.
  destruct (body_newline (Some RBRACE) None (next_char s3) _ _ _ _ _ C3 Hl)
    as (s4 & B4 & C4).
  rewrite Ev, <- Ev, Dv in C4; simpl in C4.
  refine (ParseString_finished g this _ (next_char s4) _ _ _ _ _ _ _ C4).
  - split_text.
  - rewrite Ek in E2 |- *; cbn [app] in E2 |- *.
    rewrite E1, E2, (scan_continue p2 RBRACE [LF] s2 s3 B3).
    rewrite (scan_continue (Some RBRACE) LF [] (next_char s3) s4 B4).
    reflexivity.
Qed.

(** X16: the two texts for the section [A] and the entry [k v]. *)
Lemma brace_after_value_witness :
  ParseString g0 KeyValues_new (str "A { k v }" ++ [LF]) (-1)
  = Returned true
      (mkKeyValues None true false []
         [mkKeyValues (Some (str "A")) true false [entry "k" "v"] []]) []
  /\ ParseString g0 KeyValues_new (str "A { k v}" ++ [LF]) (-1)
     = Returned true
         (mkKeyValues None true false [entry "k" "v"]
            [mkKeyValues (Some (str "A")) true false [] []]) [].
Proof.
  exact (brace_after_value g0 KeyValues_new (str "A") (str "k") (str "v")
           eq_refl eq_refl eq_refl).
Defined.

(** Sections opened one inside the other, each by its name, a space, the
    brace and a newline. *)
Lemma scan_nesting (names : list cstring) (rest : list ascii) :
  forall (prev : option ascii) (st : locals) (ck : Key) (kv : KeyValues)
         (bl : list KeyValues),
  core st = mkCore false false false [] ck kv bl ->
  forallb plain_token names = true ->
  length bl < STACK_SIZE -> STACK_SIZE <= length bl + length names ->
  scan prev (flat_map (fun n => n ++ [SPACE; LBRACE; LF]) names ++ rest) st
  = Crashed StackOverrun.
Proof.
  induction names as [|n names IH]; intros prev st ck kv bl Hc Hn Hl Hs;
    [simpl in Hs; lia|].
  simpl in Hn, Hs; apply andb_true_iff in Hn as [Hn Hns].
  cbn [flat_map]; rewrite <- !app_assoc; cbn [app].
  set (more := flat_map (fun n => n ++ [SPACE; LBRACE; LF]) names ++ rest).
  destruct (scan_plain_key n LBRACE (LF :: more) prev st _ _ _ Hc Hn
              LBRACE_not_space) as (p1 & s1 & E1 & C1).
  rewrite E1.
  destruct (Nat.lt_ge_cases (S (length bl)) STACK_SIZE) as [Hr|Hr].
  - destruct (body_open_brace p1 (Some LF) s1 _ _ _ _ _ _ C1 Hr)
      as (s2 & B2 & C2).
    rewrite (scan_continue p1 LBRACE (LF :: more) s1 s2 B2).
    rewrite <- core_next_char in C2.
    destruct (scan_newline more (Some LBRACE) (next_char s2) _ _ _ _ C2)
      as (p3 & s3 & E3 & C3).
    rewrite E3; apply (IH p3 s3 _ _ _ C3 Hns); simpl; lia.
  - rewrite scan_cons.
    now rewrite (body_open_brace_overrun p1 (hd_error (LF :: more)) s1
                   _ _ _ _ _ _ C1 Hr).
Qed.

Lemma no_nul_headers (names : list cstring) :
  forallb plain_token names = true ->
  no_nul (flat_map (fun n => n ++ [SPACE; LBRACE; LF]) names) = true.
Proof.
  induction names as [|n names IH]; simpl; [reflexivity|].
  intros H; apply andb_true_iff in H as [Hn Hns].
  rewrite !no_nul_app, (no_nul_plain_token n Hn), (IH Hns); reflexivity.
Qed.

(** X17.  Sections nested 512 deep make the scanner write past the end
    of its stack of 512 pointers: a text that opens 512 sections or more,
    one inside the other, has no defined behaviour, whatever comes after
    them. *)
Theorem deep_nesting_overruns_stack (g : garbage) (this : KeyValues)
    (names : list cstring) (rest : list ascii) :
  forallb plain_token names = true -> STACK_SIZE <= length names ->
  ParseString g this
    (flat_map (fun n => n ++ [SPACE; LBRACE; LF]) names ++ rest) (-1)
  = NoBehaviour StackOverrun.
Proof.
  intros Hn Hl; unfold ParseString, text_of; simpl.
  rewrite (c_str_app _ rest (no_nul_headers names Hn)).
  rewrite (scan_nesting names (c_str rest) None (enter g this) _ _ _
             (core_enter g this) Hn); [reflexivity | |exact Hl].
  simpl; unfold STACK_SIZE; lia.
Qed.

(** X17: 512 sections named a. *)
Lemma deep_nesting_overruns_stack_witness :
  ParseString g0 KeyValues_new
    (flat_map (fun n => n ++ [SPACE; LBRACE; LF]) (repeat (str "a") 512))
    (-1)
  = NoBehaviour StackOverrun.
Proof.
  rewrite <- (app_nil_r (flat_map _ _)).
  apply (deep_nesting_overruns_stack g0 KeyValues_new (repeat (str "a") 512)
           []).
  - vm_compute; reflexivity.
  - apply Nat.leb_le; vm_compute; reflexivity.
Defined.

(** X18.  A section that has been parsed is found.  After [n { k v }]
    is read, [GetChild] with the name [n] returns the section read, in
    which [GetString] finds the value, if there was no child of that
    name; otherwise it still returns the child there was: the first
    section of a name is the one [GetChild] sees.  Other names are
    answered as before. *)
Theorem parsed_section_is_found (g : garbage) (this : KeyValues)
    (n k v : cstring) (d : option cstring) :
  plain_token n = true -> plain_token k = true -> plain_token v = true ->
  exists this' section,
    ParseString g this
      (n ++ SPACE :: LBRACE :: SPACE :: k ++ SPACE :: v
         ++ SPACE :: RBRACE :: [LF]) (-1) = Returned true this' []
    /\ name section = Some n
    /\ GetString section k d = Some v
    /\ GetChild this' n
       = match GetChild this n with
         | Some first => Some first
         | None => Some section
         end
    /\ forall n', n' <> n -> GetChild this' n' = GetChild this n'.
Proof.
  intros Hn Hk Hv.
  exists (set_good true
            (push_child
               (mkKeyValues (Some n) true false
                  [mkKey (Some k) (Some v) NONE false] []) this)),
    (mkKeyValues (Some n) true false [mkKey (Some k) (Some v) NONE false] []).
  split; [now apply ParseString_section|].
  split; [reflexivity|]; split.
  - unfold GetString; simpl.
    assert (Hit : key_is k (mkKey (Some k) (Some v) NONE false) = true)
      by now apply key_is_iff.
    now rewrite Hit.
  - unfold GetChild; cbn [child_sections set_good push_child].
    split; [|intros n' Hn']; rewrite find_app; cbn [find name].
    + rewrite (proj2 (strcmp0_eq n n) eq_refl).
      now destruct (find _ (child_sections this)).
    + rewrite (strcmp0_neq n' n Hn').
      now destruct (find _ (child_sections this)).
Qed.

(** X18: the section [A] read into a new object. *)
Lemma parsed_section_is_found_witness :
  exists this' section,
    ParseString g0 KeyValues_new (str "A { k v }" ++ [LF]) (-1)
      = Returned true this' []
    /\ name section = Some (str "A")
    /\ GetString section (str "k") None = Some (str "v")
    /\ GetChild this' (str "A")
       = match GetChild KeyValues_new (str "A") with
         | Some first => Some first
         | None => Some section
         end
    /\ forall n', n' <> str "A" ->
         GetChild this' n' = GetChild KeyValues_new n'.
Proof.
  exact (parsed_section_is_found g0 KeyValues_new (str "A") (str "k")
           (str "v") None eq_refl eq_refl eq_refl).
Defined.

(** X19.  Between quotes a token ends at the closing quote and holds
    whatever stands before it: spaces, slashes, braces, or nothing.  An
    entry of two quoted tokens is stored at the closing quote of the
    value, with nothing after it, and is marked as quoted; the space
    between the key and the value may be left out. *)
Theorem quoted_entry_needs_no_terminator (g : garbage) (this : KeyValues)
    (k v : cstring) :
  quoted_token k = true -> quoted_token v = true ->
  let read :=
    Returned true
      (set_good true (push_key (mkKey (Some k) (Some v) NONE true) this)) []
  in
  ParseString g this
    (DQUOTE :: k ++ DQUOTE :: SPACE :: DQUOTE :: v ++ [DQUOTE]) (-1) = read
  /\ ParseString g this
       (DQUOTE :: k ++ DQUOTE :: DQUOTE :: v ++ [DQUOTE]) (-1) = read.
Proof.
  intros Hk Hv read; subst read.
  pose proof (no_nul_quoted k Hk) as Nk.
  pose proof (no_nul_quoted v Hv) as Nv.
  split.
  - destruct (scan_quoted_token k (SPACE :: DQUOTE :: v ++ [DQUOTE]) None
                (enter g this) _ _ _ _ (core_enter g this) Hk)
      as (p1 & s1 & E1 & C1).
    destruct (scan_blank_idle SPACE DQUOTE (v ++ [DQUOTE]) p1 s1 _ _ _ _ C1
                (or_introl eq_refl) DQUOTE_not_space) as (p2 & s2 & E2 & C2).
    destruct (scan_quoted_token v [] p2 s2 _ _ _ _ C2 Hv)
      as (p3 & s3 & E3 & C3).
    refine (ParseString_finished g this _ s3 _ _ _ _ _ _ _ C3).
    + simpl; split_text.
    + rewrite E1, E2, E3; reflexivity.
  - destruct (scan_quoted_token k (DQUOTE :: v ++ [DQUOTE]) None
                (enter g this) _ _ _ _ (core_enter g this) Hk)
      as (p1 & s1 & E1 & C1).
    destruct (scan_quoted_token v [] p1 s1 _ _ _ _ C1 Hv)
      as (p3 & s3 & E3 & C3).
    refine (ParseString_finished g this _ s3 _ _ _ _ _ _ _ C3).
    + simpl; split_text.
    + rewrite E1, E3; reflexivity.
Qed.

(** X19: a value with a brace, two slashes and spaces, and an empty key. *)
Lemma quoted_entry_needs_no_terminator_witness :
  let k := str "a key" in
  let v := str "{ // }" in
  ParseString g0 KeyValues_new
    (DQUOTE :: k ++ DQUOTE :: SPACE :: DQUOTE :: v ++ [DQUOTE]) (-1)
  = Returned true
      (mkKeyValues None true false [mkKey (Some k) (Some v) NONE true] []) []
  /\ ParseString g0 KeyValues_new [DQUOTE; DQUOTE; DQUOTE; DQUOTE] (-1)
     = Returned true
         (mkKeyValues None true false [mkKey (Some []) (Some []) NONE true] [])
         [].
Proof.
  intros k v; split.
  - exact (proj1 (quoted_entry_needs_no_terminator g0 KeyValues_new k v
                    eq_refl eq_refl)).
  - exact (proj2 (quoted_entry_needs_no_terminator g0 KeyValues_new [] []
                    eq_refl eq_refl)).
Defined.
